(** * DyCoT-TAGLM: namespace collapsing and SPARQL triple extraction

    A shallow embedding of
      - [dycot_taglm/dataio/preprocessors.py]  (the namespace collapser
        [uri_collapse_after_select] and its helper [_replace_uri]; the
        QALD preprocessor [_load], [_filter_english], [run]),
      - [dycot_taglm/kg/sparql_parser.py]      (the triple extractor
        [_extract_triples], [_top_level_blocks], [SparqlParser.parse_sparql])
        and
      - [dycot_taglm/kg/triple_retrieval.py]   (the helpers [_shorten] and
        [DBpediaRetriever._clean_uri])
    together with the properties of the specification that concern them
    and further properties of the code.

    Text is a list of characters.  A character is an 8-bit code point, so
    the model covers Python strings whose code points are below 256; the
    character classes are Python's own tables restricted to that range.
    The regular expressions of the source are values of a small syntax
    tree and are run by a backtracking matcher that follows the order in
    which Python's [re] explores alternatives and repetitions. *)

From Stdlib Require Import Ascii String ZArith Lia List Bool.
From stdpp Require Import gmap strings list.

Set Warnings "-register-all".

Open Scope string_scope.
Open Scope list_scope.

Abbreviation str := (list ascii).
Coercion list_ascii_of_string : string >-> list.

(* ================================================================== *)
(** ** Python strings *)
(* ================================================================== *)

Module PyStr.

Definition code (c : ascii) : N := N_of_ascii c.

Definition in_range (lo hi : N) (c : ascii) : bool :=
  ((lo <=? code c) && (code c <=? hi))%N.

(** [str.isspace] and the class [\s] on code points below 256. *)
Definition isspace (c : ascii) : bool :=
  in_range 9 13 c || in_range 28 32 c
  || (code c =? 133)%N || (code c =? 160)%N.

Definition isdigit (c : ascii) : bool := in_range 48 57 c.
Definition isupper (c : ascii) : bool := in_range 65 90 c.
Definition islower (c : ascii) : bool := in_range 97 122 c.

(** The class [\w] of a [str] pattern: alphanumeric or underscore. *)
Definition isword (c : ascii) : bool :=
  isdigit c || isupper c || islower c || (code c =? 95)%N
  || (code c =? 170)%N || (code c =? 178)%N || (code c =? 179)%N
  || (code c =? 181)%N || (code c =? 185)%N || (code c =? 186)%N
  || in_range 188 190 c || in_range 192 214 c
  || in_range 216 246 c || in_range 248 255 c.

(** Lower-casing of the letters [A-Z]; it is all that [re.I] needs for
    the ASCII letters the patterns of this program are written with. *)
Definition lower (c : ascii) : ascii :=
  if isupper c then ascii_of_N (code c + 32) else c.

Fixpoint lstrip_with (p : ascii -> bool) (s : str) : str :=
  match s with
  | c :: t => if p c then lstrip_with p t else s
  | [] => []
  end.

(** The maximal run of characters of a class at the start of a text;
    [lstrip_with] is what follows it. *)
Fixpoint lead_with (p : ascii -> bool) (s : str) : str :=
  match s with
  | c :: t => if p c then c :: lead_with p t else []
  | [] => []
  end.

Definition rstrip_with (p : ascii -> bool) (s : str) : str :=
  rev (lstrip_with p (rev s)).

(** [s.strip()] *)
Definition strip (s : str) : str := rstrip_with isspace (lstrip_with isspace s).

(** [s.lstrip(':')] *)
Definition lstrip_colon (s : str) : str := lstrip_with (Ascii.eqb ":") s.

(** [s.startswith(p)] *)
Fixpoint startswith (s p : str) {struct p} : bool :=
  match p, s with
  | [], _ => true
  | a :: p', b :: s' => Ascii.eqb a b && startswith s' p'
  | _ :: _, [] => false
  end.

(** [tok.split(":", 1)] : the text before the first colon, and the text
    after it when there is a colon. *)
Fixpoint split_colon (s : str) : str * option str :=
  match s with
  | [] => ([], None)
  | c :: t =>
      if Ascii.eqb c ":" then ([], Some t)
      else let '(p, tl) := split_colon t in (c :: p, tl)
  end.

End PyStr.

(* ================================================================== *)
(** ** Regular expressions *)
(* ================================================================== *)

Module Re.
Import PyStr.

Inductive regex : Type :=
| Eps                                   (* the empty pattern *)
| Chr (p : ascii -> bool)               (* one character of a class *)
| Seq (a b : regex)                     (* ab *)
| Alt (a b : regex)                     (* a|b, a tried first *)
| Star (greedy : bool) (a : regex)      (* a* and a*? *)
| Grp (i : nat) (a : regex)             (* capture group number i *)
| WordB.                                (* \b *)

Definition groups := list (nat * str).

(** The text a sub-pattern consumed, given the input before and after. *)
Definition consumed (s s' : str) : str := take (length s - length s') s.

Definition set_group (i : nat) (v : str) (g : groups) : groups :=
  (i, v) :: filter (fun e => negb (Nat.eqb (fst e) i)) g.

Definition group (g : groups) (i : nat) : str :=
  match find (fun e => Nat.eqb (fst e) i) g with
  | Some e => snd e
  | None => []
  end.

Definition word_opt (c : option ascii) : bool :=
  match c with Some x => isword x | None => false end.

(** A matcher state is the character before the position (for [\b]), the
    rest of the input and the groups captured so far. *)
Definition outcome := (option ascii * str * groups)%type.
Definition kont := option ascii -> str -> groups -> option outcome.

Definition or_else {A} (x : option A) (y : unit -> option A) : option A :=
  match x with Some v => Some v | None => y tt end.

(** The loop of a repetition [a*] (greedy) or [a*?] (lazy): [body] runs
    one iteration of [a], [k] the rest of the pattern.  A greedy
    repetition tries one more iteration before it tries the rest, a
    lazy one the other way round; an iteration that consumes nothing
    is not repeated.  Every iteration shortens the input, so the fuel,
    the length of the input, is never used up. *)
Definition star_loop
    (body : option ascii -> str -> groups -> kont -> option outcome)
    (greedy : bool) (k : kont)
  : nat -> option ascii -> str -> groups -> option outcome :=
  fix loop (fuel : nat) (pv : option ascii) (s : str) (g : groups)
      {struct fuel} : option outcome :=
    let more (_ : unit) :=
      match fuel with
      | O => None
      | S fuel' =>
          body pv s g (fun pv' s' g' =>
            if (length s' <? length s)%nat then loop fuel' pv' s' g' else None)
      end in
    if greedy then or_else (more tt) (fun _ => k pv s g)
    else or_else (k pv s g) more.

(** Backtracking matcher in continuation-passing style; alternatives
    are tried left to right. *)
Fixpoint run (r : regex) (pv : option ascii) (s : str) (g : groups)
         (k : kont) {struct r} : option outcome :=
  match r with
  | Eps => k pv s g
  | Chr p =>
      match s with
      | c :: t => if p c then k (Some c) t g else None
      | [] => None
      end
  | Seq a b => run a pv s g (fun pv' s' g' => run b pv' s' g' k)
  | Alt a b => or_else (run a pv s g k) (fun _ => run b pv s g k)
  | Star greedy a => star_loop (run a) greedy k (length s) pv s g
  | Grp i a =>
      run a pv s g (fun pv' s' g' => k pv' s' (set_group i (consumed s s') g'))
  | WordB =>
      if xorb (word_opt pv) (word_opt (head s)) then k pv s g else None
  end.

(** A match object: where it starts, the matched text ([group(0)]), the
    numbered groups, and the input after the match with the character
    before it. *)
Record match_obj : Type := MatchObj {
  m_start : nat;
  m_text  : str;
  m_groups : groups;
  m_prev : option ascii;
  m_rest  : str
}.

(** [pattern.match] at the current position. *)
Definition match_at (r : regex) (i : nat) (pv : option ascii) (s : str)
  : option match_obj :=
  match run r pv s [] (fun pv' s' g' => Some (pv', s', g')) with
  | Some (pv', s', g') => Some (MatchObj i (consumed s s') g' pv' s')
  | None => None
  end.

(** [pattern.search]: the leftmost position at which the pattern matches. *)
Fixpoint search_from (r : regex) (i : nat) (pv : option ascii) (s : str)
  : option match_obj :=
  match match_at r i pv s with
  | Some m => Some m
  | None =>
      match s with
      | [] => None
      | c :: t => search_from r (S i) (Some c) t
      end
  end.

Definition search (r : regex) (s : str) : option match_obj :=
  search_from r 0 None s.

(** The scan shared by [findall] and [sub]: the input cut into the
    successive non-overlapping matches and the characters between them.
    After a match the scan resumes where the match ended.  The patterns
    this program scans with match no empty text, so the case of an empty
    match, after which the scan moves on by one character, does not
    arise. *)
Inductive segment : Type :=
| Lit (c : ascii)
| Mat (m : match_obj).

Fixpoint segments (fuel : nat) (r : regex) (i : nat) (pv : option ascii)
         (s : str) {struct fuel} : list segment :=
  match fuel with
  | O => map Lit s
  | S fuel' =>
      let skip (_ : unit) :=
        match s with
        | [] => []
        | c :: t => Lit c :: segments fuel' r (S i) (Some c) t
        end in
      match match_at r i pv s with
      | Some m =>
          if (length (m_rest m) <? length s)%nat
          then Mat m :: segments fuel' r (i + length (m_text m)) (m_prev m) (m_rest m)
          else Mat m :: skip tt
      | None => skip tt
      end
  end.

Definition scan (r : regex) (s : str) : list segment :=
  segments (S (length s)) r 0 None s.

(** [pattern.sub(repl, s)] with a function [repl]. *)
Definition render (repl : match_obj -> str) (sg : segment) : str :=
  match sg with Lit c => [c] | Mat m => repl m end.

Definition sub (r : regex) (repl : match_obj -> str) (s : str) : str :=
  concat (map (render repl) (scan r s)).

(** [pattern.finditer(s)] *)
Definition finditer (r : regex) (s : str) : list match_obj :=
  omap (fun sg => match sg with Mat m => Some m | Lit _ => None end) (scan r s).

(** [re.findall] for a pattern without groups, and for one with the two
    groups 1 and 2. *)
Definition findall (r : regex) (s : str) : list str :=
  map m_text (finditer r s).

Definition findall2 (r : regex) (s : str) : list (str * str) :=
  map (fun m => (group (m_groups m) 1, group (m_groups m) 2)) (finditer r s).

(** A pattern that cannot match the empty text (a sufficient check). *)
Fixpoint nonempty (r : regex) : bool :=
  match r with
  | Chr _ => true
  | Seq a b => nonempty a || nonempty b
  | Alt a b => nonempty a && nonempty b
  | Grp _ a => nonempty a
  | Eps | Star _ _ | WordB => false
  end.

(** *** Pattern syntax *)

Definition any : ascii -> bool := fun _ => true.           (* . with re.S *)
Definition dot : ascii -> bool :=                          (* . without *)
  fun c => negb (Ascii.eqb c "010").
Definition one_of (cs : str) : ascii -> bool :=
  fun c => existsb (Ascii.eqb c) cs.
Definition none_of (cs : str) : ascii -> bool :=
  fun c => negb (one_of cs c).

Definition lit (c : ascii) : regex := Chr (Ascii.eqb c).
Definition lit_i (c : ascii) : regex :=                    (* with re.I *)
  Chr (fun x => Ascii.eqb (lower x) (lower c)).

Fixpoint word (w : str) : regex :=
  match w with
  | [] => Eps
  | [c] => lit c
  | c :: t => Seq (lit c) (word t)
  end.

Fixpoint word_i (w : str) : regex :=
  match w with
  | [] => Eps
  | [c] => lit_i c
  | c :: t => Seq (lit_i c) (word_i t)
  end.

Definition star (a : regex) : regex := Star true a.        (* a*  *)
Definition plus (a : regex) : regex := Seq a (Star true a).    (* a+  *)
Definition plus_lazy (a : regex) : regex := Seq a (Star false a). (* a+? *)
Definition opt (a : regex) : regex := Alt a Eps.           (* a?  *)

Fixpoint seqs (l : list regex) : regex :=
  match l with
  | [] => Eps
  | [a] => a
  | a :: t => Seq a (seqs t)
  end.

Fixpoint alts (l : list regex) : regex :=
  match l with
  | [] => Eps
  | [a] => a
  | a :: t => Alt a (alts t)
  end.

End Re.

(* ================================================================== *)
(** ** dataio/preprocessors.py : the namespace collapser *)
(* ================================================================== *)

Module Preprocessors.
Import PyStr Re.

(** The static namespace table, in the order the dict literal lists it. *)
Definition PREFIX_MAP : list (str * str) :=
  [ ("http://dbpedia.org/ontology/" : str, "dbo" : str);
    ("http://dbpedia.org/property/" : str, "dbp" : str);
    ("http://dbpedia.org/resource/" : str, "res" : str);
    ("http://dbpedia.org/class/yago/" : str, "yago" : str);
    ("http://www.w3.org/2000/01/rdf-schema#" : str, "rdfs" : str);
    ("http://www.w3.org/1999/02/22-rdf-syntax-ns#" : str, "rdf" : str);
    ("http://www.w3.org/2002/07/owl#" : str, "owl" : str);
    ("http://www.w3.org/2001/XMLSchema#" : str, "xsd" : str);
    ("http://xmlns.com/foaf/0.1/" : str, "foaf" : str);
    ("http://purl.org/dc/elements/1.1/" : str, "dc" : str);
    ("http://purl.org/dc/terms/" : str, "dcterms" : str);
    ("http://www.w3.org/2004/02/skos/core#" : str, "skos" : str);
    ("http://www.w3.org/2003/01/geo/wgs84_pos#" : str, "geo" : str);
    ("http://www.georss.org/georss/" : str, "georss" : str);
    ("http://dbpedia.org/" : str, "dbpedia" : str);
    ("http://purl.org/linguistics/gold/" : str, "gold" : str) ].

(** [sorted(items, key=...)]: a stable sort by ascending key. *)
Fixpoint insert_by {A} (key : A -> Z) (x : A) (l : list A) : list A :=
  match l with
  | [] => [x]
  | y :: t => if (key x <=? key y)%Z then x :: l else y :: insert_by key x t
  end.

Definition sorted_by {A} (key : A -> Z) (l : list A) : list A :=
  foldr (insert_by key) [] l.

(** [sorted(PREFIX_MAP.items(), key=lambda kv: -len(kv[0]))] *)
Definition _PREFIX_ORDER : list (str * str) :=
  sorted_by (fun kv => (- Z.of_nat (length (fst kv)))%Z) PREFIX_MAP.

(** [<\s*([^>\s]+)\s*>] *)
Definition uri_char (c : ascii) : bool := negb (Ascii.eqb c ">") && negb (isspace c).

Definition IRI_RX : regex :=
  seqs [ lit "<"; star (Chr isspace); Grp 1 (plus (Chr uri_char));
         star (Chr isspace); lit ">" ].

(** [\bSELECT\b] with [re.I] *)
Definition SELECT_RX : regex :=
  seqs [ WordB; word_i "SELECT"; WordB ].

(** The loop of [_replace_uri] over [_PREFIX_ORDER]. *)
Fixpoint replace_with (order : list (str * str)) (uri : str) : option str :=
  match order with
  | [] => None
  | (ns, prefix) :: t =>
      if startswith uri ns
      then Some (prefix ++ ":" ++ lstrip_colon (drop (length ns) uri))
      else replace_with t uri
  end.

Definition _replace_uri (m : match_obj) : str :=
  let uri := strip (group (m_groups m) 1) in
  match replace_with _PREFIX_ORDER uri with
  | Some out => out
  | None => m_text m
  end.

Definition uri_collapse_after_select (sparql : str) : str :=
  match search SELECT_RX sparql with
  | None => sparql
  | Some m =>
      let body := strip (drop (m_start m) sparql) in
      sub IRI_RX _replace_uri body
  end.

End Preprocessors.

(* ================================================================== *)
(** ** kg/sparql_parser.py : the triple extractor *)
(* ================================================================== *)

Module SparqlParser.
Import PyStr Re.

Definition dq : ascii := "034".     (* the double quote *)
Definition bs : ascii := "\".       (* the backslash *)

(** [[^\s;,.{}()]] *)
Definition pname_char (c : ascii) : bool :=
  negb (isspace c) && none_of ";,.{}()" c.

(** [Q(?:[^Q\\]|\\.)*Q(?:@[A-Za-z\-]+|\^\^[^\s;,.{}()]+)?], writing Q for
    the double quote. *)
Definition STRING_RE : regex :=
  seqs [ lit dq;
         star (Alt (Chr (none_of [dq; bs])) (Seq (lit bs) (Chr dot)));
         lit dq;
         opt (Alt (Seq (lit "@")
                       (plus (Chr (fun c => isupper c || islower c || Ascii.eqb c "-"))))
                  (seqs [ lit "^"; lit "^"; plus (Chr pname_char) ])) ].

(** [<[^>]*>] *)
Definition IRI_RE : regex :=
  seqs [ lit "<"; star (Chr (none_of ">")); lit ">" ].

(** [[^\s;,.{}()]+] *)
Definition PNAME_RE : regex := plus (Chr pname_char).

(** [[;,.]] *)
Definition SEP_RE : regex := Chr (one_of ";,.").

Definition TOKEN_RE : regex := alts [ STRING_RE; IRI_RE; PNAME_RE; SEP_RE ].

(** [[a-z0-9]] with [re.I] *)
Definition alnum_i (c : ascii) : bool := islower c || isupper c || isdigit c.

(** [PREFIX\s+([a-z0-9]+):\s*<([^>]+)>] with [re.I] *)
Definition PREFIX_PATTERN : regex :=
  seqs [ word_i "PREFIX"; plus (Chr isspace); Grp 1 (plus (Chr alnum_i));
         lit ":"; star (Chr isspace); lit "<";
         Grp 2 (plus (Chr (none_of ">"))); lit ">" ].

(** [WHERE\s*\{(.+?)\}] with [re.I | re.S] *)
Definition WHERE_PATTERN : regex :=
  seqs [ word_i "WHERE"; star (Chr isspace); lit "{";
         Grp 1 (plus_lazy (Chr any)); lit "}" ].

(** The clause patterns of [_extract_triples], all with [re.I | re.S]. *)
Definition paren_clause (kw : str) : regex :=        (* KW\s*\([^)]*\) *)
  seqs [ word_i kw; star (Chr isspace); lit "("; star (Chr (none_of ")")); lit ")" ].
Definition by_clause (kw : str) : regex :=           (* KW\s+BY[^.}]* *)
  seqs [ word_i kw; plus (Chr isspace); word_i "BY"; star (Chr (none_of ".}")) ].
Definition num_clause (kw : str) : regex :=          (* KW\s+\d+ *)
  seqs [ word_i kw; plus (Chr isspace); plus (Chr isdigit) ].

Definition strip_patterns : list regex :=
  [ paren_clause "FILTER"; paren_clause "BIND"; by_clause "GROUP";
    seqs [ word_i "HAVING"; star (Chr (none_of ".}")) ];
    by_clause "ORDER"; num_clause "LIMIT"; num_clause "OFFSET" ].

Fixpoint str_eqb (a b : str) : bool :=
  match a, b with
  | [], [] => true
  | x :: a', y :: b' => Ascii.eqb x y && str_eqb a' b'
  | _, _ => false
  end.

(** The slots of the triple-assembly loop. *)
Record slots : Type := Slots {
  subj : option str;
  pred : option str;
  out  : list (list str)
}.

(** One iteration of the [while] loop of [_extract_triples]. *)
Definition step (st : slots) (t : str) : slots :=
  if str_eqb t "." then Slots None None (out st)
  else if str_eqb t ";" then Slots (subj st) None (out st)
  else if str_eqb t "," then st
  else match subj st, pred st with
       | None, _ => Slots (Some t) (pred st) (out st)
       | Some _, None => Slots (subj st) (Some t) (out st)
       | Some sj, Some pr => Slots (subj st) (pred st) (out st ++ [[sj; pr; t]])
       end.

Definition assemble (tokens : list str) : list (list str) :=
  out (fold_left step tokens (Slots None None [])).

Definition strip_clauses (block_text : str) : str :=
  fold_left (fun txt pat => sub pat (fun _ => []) txt) strip_patterns block_text.

Definition _extract_triples (block_text : str) : list (list str) :=
  assemble (findall TOKEN_RE (strip_clauses block_text)).

(** The variables of [_top_level_blocks]. *)
Record splitter : Type := Splitter {
  blocks : list str;
  buf : str;
  depth : Z
}.

Definition is_nil {A} (l : list A) : bool :=
  match l with [] => true | _ => false end.

(** One iteration of its [for ch in where_text] loop. *)
Definition split_step (st : splitter) (ch : ascii) : splitter :=
  if Ascii.eqb ch "{" then
    let st1 :=
      if (depth st =? 0)%Z && negb (is_nil (buf st))
      then Splitter (blocks st ++ [strip (buf st)]) [] (depth st)
      else st in
    let d := (depth st1 + 1)%Z in
    Splitter (blocks st1) (if (1 <? d)%Z then buf st1 ++ [ch] else buf st1) d
  else if Ascii.eqb ch "}" then
    let d := (depth st - 1)%Z in
    if (0 <? d)%Z then Splitter (blocks st) (buf st ++ [ch]) d
    else Splitter (blocks st ++ [strip (buf st)]) [] d
  else Splitter (blocks st) (buf st ++ [ch]) (depth st).

Definition _top_level_blocks (where_text : str) : list str :=
  let st := fold_left split_step where_text (Splitter [] [] 0) in
  let tail := strip (buf st) in
  if is_nil tail then blocks st else blocks st ++ [tail].

(** *** Answer entries

    A record is a JSON object, so an answer entry is any JSON value. *)
Inductive pyval : Type :=
| PNone
| PBool (b : bool)
| PInt (z : Z)
| PStr (s : str)
| PList (l : list pyval)
| PDict (d : list (str * pyval)).   (* items in insertion order, keys distinct *)

Inductive exn : Type := StopIteration | TypeError | KeyError | IndexError.

Inductive result (A : Type) : Type :=
| Ok (a : A)
| Raise (e : exn).
Arguments Ok {A} a.
Arguments Raise {A} e.

Definition bind {A B} (x : result A) (f : A -> result B) : result B :=
  match x with Ok a => f a | Raise e => Raise e end.

Notation "x <- c ;; k" := (bind c (fun x => k))
  (at level 100, c at next level, right associativity).

(** [next(iter(a))] *)
Definition first_of (a : pyval) : result pyval :=
  match a with
  | PDict [] | PList [] | PStr [] => Raise StopIteration
  | PDict ((k, _) :: _) => Ok (PStr k)
  | PList (x :: _) => Ok x
  | PStr (c :: _) => Ok (PStr [c])
  | PNone | PBool _ | PInt _ => Raise TypeError
  end.

Definition hashable (v : pyval) : bool :=
  match v with PList _ | PDict _ => false | _ => true end.

(** An [int] index (a [bool] is one too). *)
Definition as_index (v : pyval) : option Z :=
  match v with
  | PInt z => Some z
  | PBool b => Some (if b then 1 else 0)%Z
  | _ => None
  end.

(** [l[z]] on a sequence, negative indices counting from the end. *)
Definition seq_item {A} (l : list A) (z : Z) : result A :=
  let n := Z.of_nat (length l) in
  let i := if (z <? 0)%Z then (z + n)%Z else z in
  if (i <? 0)%Z then Raise IndexError
  else match nth_error l (Z.to_nat i) with
       | Some x => Ok x
       | None => Raise IndexError
       end.

Fixpoint assoc {A} (k : str) (d : list (str * A)) : option A :=
  match d with
  | [] => None
  | (k', v) :: t => if str_eqb k k' then Some v else assoc k t
  end.

(** [a[v]] *)
Definition getitem (a v : pyval) : result pyval :=
  match a with
  | PDict d =>
      match v with
      | PStr k => match assoc k d with Some x => Ok x | None => Raise KeyError end
      | _ => if hashable v then Raise KeyError else Raise TypeError
      end
  | PList l =>
      match as_index v with Some z => seq_item l z | None => Raise TypeError end
  | PStr s =>
      match as_index v with
      | Some z => c <- seq_item s z ;; Ok (PStr [c])
      | None => Raise TypeError
      end
  | PNone | PBool _ | PInt _ => Raise TypeError
  end.

(** Equality of two hashable values as dict keys ([True == 1]). *)
Definition key_eqb (a b : pyval) : bool :=
  match a, b with
  | PNone, PNone => true
  | PStr x, PStr y => str_eqb x y
  | _, _ =>
      match as_index a, as_index b with
      | Some x, Some y => (x =? y)%Z
      | _, _ => false
      end
  end.

(** [ans_map], a dict from the bound variable to its list of values. *)
Definition ans_map := list (pyval * list pyval).

(** [ans_map.setdefault(v, []).append(x)] *)
Fixpoint setdefault_append (m : ans_map) (v x : pyval) : ans_map :=
  match m with
  | [] => [(v, [x])]
  | (k, l) :: t =>
      if key_eqb k v then (k, l ++ [x]) :: t
      else (k, l) :: setdefault_append t v x
  end.

(** The body of the loop over the answers of a record. *)
Definition index_answer (m : ans_map) (a : pyval) : result ans_map :=
  match a with
  | PBool _ => Ok m
  | _ =>
      v <- first_of a ;;
      _ <- (if hashable v then Ok tt else Raise TypeError) ;;
      av <- getitem a v ;;
      x <- getitem av (PStr "value") ;;
      Ok (setdefault_append m v x)
  end.

Fixpoint index_answers (m : ans_map) (l : list pyval) : result ans_map :=
  match l with
  | [] => Ok m
  | a :: t => m' <- index_answer m a ;; index_answers m' t
  end.

(** *** Records *)

(** The keys of a record that [parse_sparql] reads or writes; [None] is
    an absent key. *)
Record sample : Type := Sample {
  formated_query : option str;
  query : option str;
  answers : option (list pyval);
  answers_value : option ans_map;
  triples : option (list (list str))
}.

(** [x or y] on optional text: an absent or empty [x] is falsy. *)
Definition or_str (x : option str) (y : str) : str :=
  match x with
  | Some (c :: t) => c :: t
  | _ => y
  end.

(** [dict(pairs)]: a later pair with the same key replaces the value. *)
Definition dict_of (pairs : list (str * str)) : gmap str str :=
  fold_left (fun d kv => <[fst kv := snd kv]> d) pairs ∅.

(** [d.setdefault(k, v)] *)
Definition setdefault (k v : str) (d : gmap str str) : gmap str str :=
  match d !! k with
  | Some _ => d
  | None => <[k := v]> d
  end.

(** [for k, v in local.items(): self.global_prefixes.setdefault(k, v)] *)
Definition merge_prefixes (g local : gmap str str) : gmap str str :=
  fold_left (fun d kv => setdefault (fst kv) (snd kv) d) (map_to_list local) g.

(** The prefix expansion of one token against the record-local table. *)
Definition expand (local : gmap str str) (tok : str) : str :=
  match split_colon tok with
  | (p, Some tl) =>
      match local !! p with
      | Some ns => ns ++ ":" ++ tl
      | None => tok
      end
  | (_, None) => tok
  end.

(** [SparqlParser.__init__] *)
Definition init : gmap str str := ∅.

(** One iteration of the loop of [parse_sparql]: the record [s] with
    the global table [g] before it; the table after it, and the record
    as updated or the exception raised. *)
Definition parse_one (g : gmap str str) (s : sample)
  : gmap str str * result sample :=
  let query_text := or_str (formated_query s) (or_str (query s) []) in
  match index_answers [] (default [] (answers s)) with
  | Raise e => (g, Raise e)
  | Ok am =>
      let local := dict_of (findall2 PREFIX_PATTERN query_text) in
      let g' := merge_prefixes g local in
      match search WHERE_PATTERN query_text with
      | None =>
          (g', Ok (Sample (formated_query s) (query s) (answers s) (Some am) (Some [])))
      | Some m =>
          let where_txt := group (m_groups m) 1 in
          let flat := concat (map _extract_triples (_top_level_blocks where_txt)) in
          let expanded := map (map (expand local)) flat in
          (g', Ok (Sample (formated_query s) (query s) (answers s) (Some am)
                          (Some expanded)))
      end
  end.

(** [SparqlParser.parse_sparql]: the global table is threaded through
    the records in order; an exception ends the loop. *)
Fixpoint parse_sparql (g : gmap str str) (samples : list sample)
  : gmap str str * result (list sample) :=
  match samples with
  | [] => (g, Ok [])
  | s :: rest =>
      match parse_one g s with
      | (g1, Raise e) => (g1, Raise e)
      | (g1, Ok s') =>
          match parse_sparql g1 rest with
          | (g2, Raise e) => (g2, Raise e)
          | (g2, Ok rest') => (g2, Ok (s' :: rest'))
          end
      end
  end.

End SparqlParser.

(* ================================================================== *)
(** ** Inputs and predicates the properties are stated with *)
(* ================================================================== *)

Module Cases.
Import PyStr Re Preprocessors SparqlParser.

(** Triples written with string literals. *)
Definition strs (l : list string) : list str := map list_ascii_of_string l.
Definition triples_lit (l : list (list string)) : list (list str) := map strs l.

(** A record that only carries a query text. *)
Definition of_query (q : str) : sample := Sample None (Some q) None None None.

(** Record A declares the prefix [ex]; record B uses it without
    declaring it; record A' declares it again with another namespace. *)
Definition record_A : sample :=
  of_query "PREFIX ex: <http://ex.org/> SELECT ?x WHERE { ?x a ex:Bar }".
Definition record_B : sample :=
  of_query "SELECT ?x WHERE { ?x a ex:Foo }".
Definition record_A' : sample :=
  of_query "PREFIX ex: <http://other.org/> SELECT ?x WHERE { ?x a ex:Baz }".

(** A query whose matching clause is a UNION of two groups, and the
    interior of its outermost pair of braces. *)
Definition union_query : str :=
  "SELECT ?x WHERE { { ?x a dbo:Person } UNION { ?x a dbo:Place } }".
Definition union_body : str :=
  " { ?x a dbo:Person } UNION { ?x a dbo:Place } ".

(** A block with a FILTER whose argument has nested parentheses and a
    string literal, followed by a triple pattern. *)
Definition filter_literal : str := [dq] ++ "http://a.b/" ++ [dq].
Definition filter_block : str :=
  "FILTER(STRSTARTS(STR(?x), " ++ filter_literal ++ ")) ?x a dbo:Person .".

(** The triples of a processed record, and of each record of a batch
    that [parse_sparql] returned. *)
Definition triples_of (s : sample) : list (list str) := default [] (triples s).

Definition triples_out (r : gmap str str * result (list sample))
  : option (list (list (list str))) :=
  match snd r with
  | Ok l => Some (map triples_of l)
  | Raise _ => None
  end.

(** A text without a colon. *)
Definition no_colon (s : str) : bool := forallb (fun c => negb (Ascii.eqb c ":")) s.

(** An answer entry that the indexing loop accepts: a boolean, or a
    non-empty mapping whose first value is a mapping with the key
    [value]. *)
Definition entry_ok (a : pyval) : bool :=
  match a with
  | PBool _ => true
  | PDict ((_, PDict d) :: _) =>
      match assoc "value" d with Some _ => true | None => false end
  | _ => false
  end.

Definition answers_ok (s : sample) : bool :=
  forallb entry_ok (default [] (answers s)).

(** A record one of whose answer entries is the empty mapping. *)
Definition has_empty_mapping (s : sample) : bool :=
  existsb (fun a => match a with PDict [] => true | _ => false end)
          (default [] (answers s)).

(** The first entry of the longest-first table that a resource
    identifier lies under. *)
Definition first_namespace (uri : str) : option (str * str) :=
  find (fun e => startswith uri (fst e)) _PREFIX_ORDER.

(** [a] is a proper prefix of [b]. *)
Definition proper_prefix (a b : str) : bool :=
  startswith b a && (length a <? length b)%nat.

End Cases.

(* ================================================================== *)
(** ** The matcher read off the two patterns of the collapser *)
(* ================================================================== *)

Module Views.
Import PyStr Re Preprocessors.

(** What a greedy repetition of one character class does: the longest
    run first, then one character less at a time. *)
Fixpoint star_chr (p : ascii -> bool) (pv : option ascii) (s : str)
         (g : groups) (k : kont) : option outcome :=
  match s with
  | c :: t =>
      if p c then or_else (star_chr p (Some c) t g k) (fun _ => k pv s g)
      else k pv s g
  | [] => k pv s g
  end.

(** The character before the position once the text [u] is consumed. *)
Definition prev_after (pv : option ascii) (u : str) : option ascii :=
  match last u with Some c => Some c | None => pv end.

(** A text is [stopped] for a class when it does not start with one of
    its characters. *)
Definition stopped (p : ascii -> bool) (s : str) : bool :=
  match s with c :: _ => negb (p c) | [] => true end.

(** A text [ends_ok] when it is empty or its last character is not
    white space. *)
Definition ends_ok (s : str) : bool := stopped isspace (rev s).

(** A text without an opening bracket. *)
Definition no_lt (s : str) : bool := forallb (fun c => negb (Ascii.eqb c "<")) s.

(** [IRI_RX] at the start of a text: the matched text, the identifier
    (group 1) and the text after the match. *)
Definition iri_at (s : str) : option (str * str * str) :=
  match s with
  | c :: t =>
      if Ascii.eqb "<" c then
        let t1 := lstrip_with isspace t in
        let u := lead_with uri_char t1 in
        let t2 := lstrip_with isspace (lstrip_with uri_char t1) in
        match u, t2 with
        | _ :: _, d :: rest =>
            if Ascii.eqb ">" d then Some (consumed s rest, u, rest) else None
        | _, _ => None
        end
      else None
  | [] => None
  end.

Definition iri_match (i : nat) (x : str * str * str) : match_obj :=
  MatchObj i (fst (fst x)) [(1, snd (fst x))] (Some ">"%char) (snd x).

(** A bracketed identifier with the white space around it. *)
Definition bracketed (w1 u w2 : str) : str := "<"%char :: w1 ++ u ++ w2 ++ [">"%char].

(** What [_replace_uri] makes of a match: it reads the matched text and
    group 1 only. *)
Definition collapse_iri (txt u : str) : str :=
  match replace_with _PREFIX_ORDER (strip u) with
  | Some out => out
  | None => txt
  end.

(** [sub] from a position inside the text. *)
Definition sub_at (r : regex) (f : match_obj -> str) (i : nat)
           (pv : option ascii) (s : str) : str :=
  concat (map (render f) (segments (S (length s)) r i pv s)).

Definition collapse_from (i : nat) (pv : option ascii) (s : str) : str :=
  sub_at IRI_RX _replace_uri i pv s.

(** The substitution pass of [uri_collapse_after_select]. *)
Definition collapse_body (s : str) : str := sub IRI_RX _replace_uri s.

(** Equality of two letters under [re.I]. *)
Definition ci (c x : ascii) : bool := Ascii.eqb (lower c) (lower x).

(** [SELECT_RX] at the start of a text, with the character before it:
    the keyword as written, its last letter and the text after it. *)
Definition select_at (pv : option ascii) (s : str) : option (str * ascii * str) :=
  match s with
  | c1 :: c2 :: c3 :: c4 :: c5 :: c6 :: rest =>
      if negb (word_opt pv)
         && (ci c1 "S" && ci c2 "E" && ci c3 "L" && ci c4 "E" && ci c5 "C" && ci c6 "T")
         && negb (word_opt (head rest))
      then Some ([c1; c2; c3; c4; c5; c6], c6, rest)
      else None
  | _ => None
  end.

Definition select_match (i : nat) (x : str * ascii * str) : match_obj :=
  MatchObj i (fst (fst x)) [] (Some (snd (fst x))) (snd x).

(** Texts in which every opening bracket starts a match of [IRI_RX]
    whose identifier (group 1) has no further opening bracket inside. *)
Inductive well_bracketed : str -> Prop :=
| wb_nil : well_bracketed []
| wb_char c t :
    c <> "<"%char -> well_bracketed t -> well_bracketed (c :: t)
| wb_iri s m :
    match_at IRI_RX 0 None s = Some m ->
    no_lt (group (m_groups m) 1) = true ->
    well_bracketed (m_rest m) -> well_bracketed s.

End Views.

(* ================================================================== *)
(** ** Predicates and views for the further properties *)
(* ================================================================== *)

Module Shapes.
Import PyStr Re Preprocessors SparqlParser Cases Views.

(** The text of a segment of the scan. *)
Definition seg_text (sg : segment) : str :=
  match sg with Lit c => [c] | Mat m => m_text m end.

(** Braces. *)
Definition is_open (c : ascii) : bool := Ascii.eqb c "{".
Definition is_close (c : ascii) : bool := Ascii.eqb c "}".
Definition no_brace (s : str) : bool :=
  forallb (fun c => negb (is_open c) && negb (is_close c)) s.

(** The number of groups open after a text, starting with [n] open
    groups; [None] when a brace closes a group that is not open. *)
Fixpoint nesting (n : nat) (s : str) : option nat :=
  match s with
  | [] => Some n
  | c :: t =>
      if is_open c then nesting (S n) t
      else if is_close c then
        match n with
        | O => None
        | S m => nesting m t
        end
      else nesting n t
  end.

(** A text whose braces are balanced. *)
Definition balanced (s : str) : bool :=
  match nesting 0 s with Some O => true | _ => false end.

(** The state of the splitter with the blocks [bs] put before its own. *)
Definition with_blocks (bs : list str) (st : splitter) : splitter :=
  Splitter (bs ++ blocks st) (buf st) (depth st).

(** What [_top_level_blocks] returns from a state of its loop: the blocks,
    and the stripped buffer when it is not empty. *)
Definition blocks_from (st : splitter) : list str :=
  let tail := strip (buf st) in
  if is_nil tail then blocks st else blocks st ++ [tail].

(** The separator tokens. *)
Definition is_sep (t : str) : bool :=
  str_eqb t "." || str_eqb t ";" || str_eqb t ",".

(** The state of the assembly loop with the triples [o] put before its own. *)
Definition with_out (o : list (list str)) (st : slots) : slots :=
  Slots (subj st) (pred st) (o ++ out st).

(** The slots hold no separator, and the triples are made of three
    tokens that are no separators. *)
Definition triple_ok (tokens : list str) (tr : list str) : Prop :=
  length tr = 3 /\ Forall (fun t => is_sep t = false /\ In t tokens) tr.

(** A subject or predicate slot holds a token that is no separator. *)
Definition slot_ok (tokens : list str) (o : option str) : Prop :=
  match o with Some t => is_sep t = false /\ In t tokens | None => True end.

(** The number of tokens that are no separators. *)
Definition count_terms (tokens : list str) : nat :=
  length (List.filter (fun t => negb (is_sep t)) tokens).

(** 1 for a filled slot. *)
Definition filled (o : option str) : nat :=
  match o with Some _ => 1 | None => 0 end.

(** The invariant of the assembly loop that bounds the triples by the
    number [n] of tokens read that are no separators. *)
Definition within (n : nat) (st : slots) : Prop :=
  (length (out st) + 2 <= n
   \/ (out st = [] /\ filled (subj st) + filled (pred st) <= n))
  /\ (subj st = None -> pred st = None).

(** The characters that tokenization can drop: white space, braces and
    parentheses. *)
Definition skippable (c : ascii) : bool := isspace c || one_of "{}()" c.

(** A text without the characters that tokenization can drop. *)
Definition keep_terms (s : str) : str := List.filter (fun c => negb (skippable c)) s.

(** The record [s'] is [s] with its two output keys set. *)
Definition same_inputs (s s' : sample) : Prop :=
  formated_query s' = formated_query s /\ query s' = query s
  /\ answers s' = answers s
  /\ answers_value s' <> None /\ triples s' <> None.

(** The answer entries of the interface: a boolean, or one variable
    bound to a mapping that has the value under the key [value]. *)
Inductive answer : Type :=
| Boolean (b : bool)
| Binding (v : str) (x : pyval).

(** The answer as it stands in a record. *)
Definition entry_of (a : answer) : pyval :=
  match a with
  | Boolean b => PBool b
  | Binding v x => PDict [(v, PDict [("value" : str, x)])]
  end.

(** The values bound to a variable, in the order of the entries. *)
Fixpoint values_of (v : str) (l : list answer) : list pyval :=
  match l with
  | [] => []
  | Boolean _ :: t => values_of v t
  | Binding v' x :: t => if str_eqb v' v then x :: values_of v t else values_of v t
  end.

(** [ans_map.get(v, [])] *)
Definition answers_for (m : ans_map) (v : str) : list pyval :=
  match find (fun e => key_eqb (fst e) (PStr v)) m with
  | Some e => snd e
  | None => []
  end.

(** The query text [parse_sparql] reads from a record. *)
Definition query_text (s : sample) : str :=
  or_str (formated_query s) (or_str (query s) []).

(** A text without an opening brace. *)
Definition no_open (s : str) : bool := forallb (fun c => negb (is_open c)) s.

End Shapes.

(* ================================================================== *)
(** ** kg/triple_retrieval.py : shortening and cleaning names *)
(* ================================================================== *)

Module TripleRetrieval.
Import PyStr Re Preprocessors.

(** The static namespace table, in the order the dict literal lists it. *)
Definition PREFIX_MAP : list (str * str) :=
  [ ("http://dbpedia.org/ontology/" : str, "dbo" : str);
    ("http://dbpedia.org/property/" : str, "dbp" : str);
    ("http://dbpedia.org/resource/" : str, "res" : str);
    ("http://dbpedia.org/class/yago/" : str, "yago" : str);
    ("http://www.w3.org/2000/01/rdf-schema#" : str, "rdfs" : str);
    ("http://www.w3.org/1999/02/22-rdf-syntax-ns#" : str, "rdf" : str);
    ("http://www.w3.org/2002/07/owl#" : str, "owl" : str);
    ("http://www.w3.org/2001/XMLSchema#" : str, "xsd" : str);
    ("http://xmlns.com/foaf/0.1/" : str, "foaf" : str);
    ("http://purl.org/dc/elements/1.1/" : str, "dc" : str);
    ("http://purl.org/dc/terms/" : str, "dcterms" : str);
    ("http://www.w3.org/2004/02/skos/core#" : str, "skos" : str);
    ("http://www.w3.org/2003/01/geo/wgs84_pos#" : str, "geo" : str);
    ("http://www.georss.org/georss/" : str, "georss" : str);
    ("http://dbpedia.org/" : str, "dbpedia" : str);
    ("http://purl.org/linguistics/gold/" : str, "gold" : str) ].

(** [sorted(PREFIX_MAP.items(), key=lambda kv: -len(kv[0]))] *)
Definition _PREFIX_ORDER : list (str * str) :=
  sorted_by (fun kv => (- Z.of_nat (length (fst kv)))%Z) PREFIX_MAP.

(** [s.endswith(p)] *)
Definition endswith (s p : str) : bool := startswith (rev s) (rev p).

(** [s[1:-1]] *)
Definition inner_slice (s : str) : str := take (length s - 2) (drop 1 s).

(** [_shorten]; the loop over the table is the one of [_replace_uri]. *)
Definition _shorten (uri : str) : str :=
  let uri := if startswith uri "<" && endswith uri ">" then inner_slice uri else uri in
  match replace_with _PREFIX_ORDER uri with
  | Some out => out
  | None => uri
  end.

(** [[^\w\s-]] *)
Definition unclean (c : ascii) : bool :=
  negb (isword c || isspace c || Ascii.eqb c "-").

(** [s.replace(" ", "_")] *)
Definition underscore (s : str) : str :=
  map (fun c => if Ascii.eqb c " " then "_"%char else c) s.

(** [DBpediaRetriever._clean_uri] *)
Definition _clean_uri (entity : str) : str :=
  strip (underscore (sub (Chr unclean) (fun _ => []) entity)).

(** The test of [_shorten]: the text is enclosed in angle brackets. *)
Definition bracketed_text (s : str) : bool := startswith s "<" && endswith s ">".

(** The characters a cleaned name is made of. *)
Definition clean_char (c : ascii) : bool :=
  negb (unclean c) && negb (Ascii.eqb c " ").

(** The resource identifier of an entity name, as written in a default row
    value: [http://dbpedia.org/resource/{entity}]. *)
Definition resource_uri (entity : str) : str := "http://dbpedia.org/resource/" ++ entity.

(** The characters that leave nothing of an entity name: those that are
    deleted, and white space other than the space character. *)
Definition vanishing (c : ascii) : bool :=
  unclean c || (isspace c && negb (Ascii.eqb c " ")).

(** The body of the loop over the entities of a record in
    [DBpediaRetriever.run]; [fetch] stands for the query to the endpoint. *)
Definition entity_triples (fetch : str -> list (str * str * str)) (ent : str)
  : list (str * str * str) :=
  let cleaned := _clean_uri ent in
  match cleaned with
  | [] => [("SKIPPED" : str, "SKIPPED" : str, _shorten ent)]
  | _ :: _ => fetch cleaned
  end.

End TripleRetrieval.

(* ================================================================== *)
(** ** dataio/preprocessors.py : the QALD preprocessor *)
(* ================================================================== *)

Module QALDPreprocessor.
Import PyStr Re Preprocessors SparqlParser Cases.

(** What the preprocessor can raise: the exceptions of the built-in
    operations, and the one of a method call on a value without it. *)
Inductive raised : Type :=
| Builtin (e : exn)
| AttributeError.

(** A value, or what was raised. *)
Inductive res (A : Type) : Type :=
| Return (a : A)
| Throw (r : raised).
Arguments Return {A} a.
Arguments Throw {A} r.

(** Sequencing: the first exception ends the computation. *)
Definition and_then {A B} (x : res A) (f : A -> res B) : res B :=
  match x with Return a => f a | Throw r => Throw r end.

Notation "x <~ c ;; k" := (and_then c (fun x => k))
  (at level 100, c at next level, right associativity).

(** A built-in operation inside the preprocessor. *)
Definition lift {A} (x : result A) : res A :=
  match x with Ok a => Return a | Raise e => Throw (Builtin e) end.

(** [v.get(k, dflt)]: only a mapping has the method. *)
Definition dict_get (v : pyval) (k : str) (dflt : pyval) : res pyval :=
  match v with
  | PDict d => Return (default dflt (assoc k d))
  | _ => Throw AttributeError
  end.

(** The items a [for] loop over [v] visits. *)
Definition items_of (v : pyval) : result (list pyval) :=
  match v with
  | PList l => Ok l
  | PDict d => Ok (map (fun kv => PStr (fst kv)) d)
  | PStr s => Ok (map (fun c => PStr [c]) s)
  | PNone | PBool _ | PInt _ => Raise TypeError
  end.

(** [v == k] for a text [k] *)
Definition is_str (k : str) (v : pyval) : bool :=
  match v with PStr s => str_eqb s k | _ => false end.

(** [k in s] on two texts *)
Fixpoint infix (k s : str) : bool :=
  startswith s k || match s with [] => false | _ :: t => infix k t end.

(** [k in v] for a text [k] *)
Definition contains (v : pyval) (k : str) : result bool :=
  match v with
  | PDict d => Ok (match assoc k d with Some _ => true | None => false end)
  | PList l => Ok (existsb (is_str k) l)
  | PStr s => Ok (infix k s)
  | PNone | PBool _ | PInt _ => Raise TypeError
  end.

(** The truth value of [v], as [or] and [if] take it. *)
Definition truthy (v : pyval) : bool :=
  match v with
  | PNone => false
  | PBool b => b
  | PInt z => negb (z =? 0)%Z
  | PStr s => negb (is_nil s)
  | PList l => negb (is_nil l)
  | PDict d => negb (is_nil d)
  end.

(** [uri_collapse_after_select(raw)]: the search needs a text. *)
Definition collapse_val (raw : pyval) : result pyval :=
  match raw with
  | PStr s => Ok (PStr (uri_collapse_after_select s))
  | _ => Raise TypeError
  end.

(** The body of the loop of [_load]. *)
Definition load_one (q : pyval) : res pyval :=
  has <~ lift (contains q "new_query") ;;
  if has then Return q
  else
    qu <~ dict_get q "query" (PDict []) ;;
    raw <~ dict_get qu "sparql" (PStr "") ;;
    nq <~ lift (collapse_val raw) ;;
    match q with
    | PDict d => Return (PDict (d ++ [("new_query" : str, nq)]))
    | _ => Throw AttributeError
    end.

(** A loop that builds a list, ended by the first exception. *)
Fixpoint for_each {A B} (f : A -> res B) (l : list A) : res (list B) :=
  match l with
  | [] => Return []
  | a :: t => b <~ f a ;; bs <~ for_each f t ;; Return (b :: bs)
  end.

(** [QALDPreprocessor._load] on the parsed file. *)
Definition _load (doc : pyval) : res pyval :=
  questions <~ lift (getitem doc (PStr "questions")) ;;
  l <~ lift (items_of questions) ;;
  l' <~ for_each load_one l ;;
  Return (match questions with PList _ => PList l' | _ => questions end).

(** The loop over the phrasings of a question; [cur] is
    [entry[question]] so far. *)
Fixpoint pick_question (include_all_langs : bool) (cur : pyval) (l : list pyval)
  : res pyval :=
  match l with
  | [] => Return cur
  | phr :: rest =>
      lang <~ dict_get phr "language" PNone ;;
      cur' <~ (if is_str "en" lang then dict_get phr "string" (PStr "")
               else Return cur) ;;
      if include_all_langs then pick_question include_all_langs cur' rest
      else Return cur'
  end.

(** The four keys of an entry. *)
Record entry : Type := Entry {
  e_id : pyval;
  e_question : pyval;
  e_formated_query : pyval;
  e_answers : pyval
}.

(** The answers of an entry, from the first answer object. *)
Definition pick_answers (a0 : pyval) : result pyval :=
  has_results <- contains a0 "results" ;;
  if has_results then
    r <- getitem a0 (PStr "results") ;; getitem r (PStr "bindings")
  else
    has_boolean <- contains a0 "boolean" ;;
    if has_boolean then b <- getitem a0 (PStr "boolean") ;; Ok (PList [b])
    else Ok (PList []).

(** The body of the loop of [_filter_english]. *)
Definition filter_one (include_all_langs : bool) (q : pyval) : res entry :=
  id <~ dict_get q "id" (PStr "") ;;
  fq <~ lift (getitem q (PStr "new_query")) ;;
  phrs <~ dict_get q "question" (PList []) ;;
  l <~ lift (items_of phrs) ;;
  question <~ pick_question include_all_langs (PStr "") l ;;
  ans <~ dict_get q "answers" PNone ;;
  a0 <~ lift (getitem (if truthy ans then ans else PList [PDict []]) (PInt 0)) ;;
  answers <~ lift (pick_answers a0) ;;
  Return (Entry id question fq answers).

(** [QALDPreprocessor._filter_english] *)
Definition _filter_english (include_all_langs : bool) (qs : pyval)
  : res (list entry) :=
  l <~ lift (items_of qs) ;;
  for_each (filter_one include_all_langs) l.

(** [QALDPreprocessor.run], the file written aside. *)
Definition run (include_all_langs : bool) (doc : pyval) : res (list entry) :=
  qs <~ _load doc ;; _filter_english include_all_langs qs.

(** An entry as the record the parser reads: the collapsed query is a
    text and the answers are a list; an entry has no key [query]. *)
Definition to_sample (e : entry) : option sample :=
  match e_formated_query e, e_answers e with
  | PStr s, PList l => Some (Sample (Some s) None (Some l) None None)
  | _, _ => None
  end.

(** [isinstance(v, dict)] *)
Definition is_dict (v : pyval) : bool :=
  match v with PDict _ => true | _ => false end.

(** A phrasing in English. *)
Definition english (phr : pyval) : bool :=
  match phr with
  | PDict d => is_str "en" (default PNone (assoc "language" d))
  | _ => false
  end.

(** [phr.get(string, empty)] of a mapping. *)
Definition string_of (phr : pyval) : pyval :=
  match phr with
  | PDict d => default (PStr "") (assoc "string" d)
  | _ => PNone
  end.

(** The first answer object of a question in the QALD format: none, a
    mapping with the bindings of a result set, or a mapping with a
    boolean. *)
Definition answer_ok (ans : option pyval) : bool :=
  match ans with
  | None | Some PNone | Some (PList []) => true
  | Some (PList (PDict a :: _)) =>
      match assoc "results" a with
      | Some (PDict r) =>
          match assoc "bindings" r with
          | Some (PList bs) => forallb entry_ok bs
          | _ => false
          end
      | Some _ => false
      | None =>
          match assoc "boolean" a with
          | Some (PBool _) | None => true
          | Some _ => false
          end
      end
  | _ => false
  end.

(** The query text an entry of the question will carry. *)
Definition query_of (q : pyval) : option str :=
  match q with
  | PDict d =>
      match assoc "new_query" d with
      | Some (PStr s) => Some s
      | Some _ => None
      | None =>
          match assoc "query" d with
          | Some (PDict qu) =>
              match assoc "sparql" qu with
              | Some (PStr raw) => Some (uri_collapse_after_select raw)
              | Some _ => None
              | None => Some (uri_collapse_after_select "")
              end
          | Some _ => None
          | None => Some (uri_collapse_after_select "")
          end
      end
  | _ => None
  end.

(** The phrasings of a question: a list of mappings, if any. *)
Definition phrases_ok (d : list (str * pyval)) : bool :=
  match assoc "question" d with
  | Some (PList l) => forallb is_dict l
  | Some _ => false
  | None => true
  end.

(** A question of a file in the QALD format. *)
Definition question_ok (q : pyval) : bool :=
  match q with
  | PDict d =>
      match query_of q with Some _ => true | None => false end
      && phrases_ok d && answer_ok (assoc "answers" d)
  | _ => false
  end.

(** The list of the values, when every one is there. *)
Fixpoint all_some {A} (l : list (option A)) : option (list A) :=
  match l with
  | [] => Some []
  | None :: _ => None
  | Some a :: t => match all_some t with Some r => Some (a :: r) | None => None end
  end.

(** A question as [_load] leaves it. *)
Definition loaded (q : pyval) (s : str) : Prop :=
  exists d, q = PDict d /\ assoc "new_query" d = Some (PStr s)
            /\ phrases_ok d = true /\ answer_ok (assoc "answers" d) = true.

End QALDPreprocessor.

(* ================================================================== *)
(** ** Properties *)
(* ================================================================== *)

Import PyStr Re Preprocessors SparqlParser Cases Views.

(** *** The matcher *)

Lemma star_loop_unfold body greedy k fuel pv s g :
  star_loop body greedy k fuel pv s g
  = let more (_ : unit) :=
      match fuel with
      | O => None
      | S fuel' =>
          body pv s g (fun pv' s' g' =>
            if (length s' <? length s)%nat
            then star_loop body greedy k fuel' pv' s' g' else None)
      end in
    if greedy then or_else (more tt) (fun _ => k pv s g)
    else or_else (k pv s g) more.
Proof. destruct fuel; reflexivity. Qed.

(** The matcher answers only through its continuation, which it calls
    on a suffix of the input, a proper one for a [nonempty] pattern. *)
Lemma run_inv (r : regex) :
  forall pv s g k o,
    run r pv s g k = Some o ->
    exists pv' s' g',
      k pv' s' g' = Some o /\ length s' <= length s
      /\ (nonempty r = true -> length s' < length s).
Proof.
  induction r as [|p|a IHa b IHb|a IHa b IHb|greedy a IHa|i a IHa|];
    intros pv s g k o H; cbn [run] in H.
  - exists pv, s, g. repeat split; [exact H|lia|discriminate].
  - destruct s as [|c t]; [discriminate|]. destruct (p c); [|discriminate].
    exists (Some c), t, g. cbn [length]. repeat split; [exact H|lia|lia].
  - apply IHa in H as (pv1 & s1 & g1 & H & Hl1 & Hn1).
    apply IHb in H as (pv2 & s2 & g2 & H & Hl2 & Hn2).
    exists pv2, s2, g2. repeat split; [exact H|lia|].
    cbn [nonempty]. intros Hne. apply orb_prop in Hne as [Hne|Hne];
      [specialize (Hn1 Hne)|specialize (Hn2 Hne)]; lia.
  - cbn [nonempty]. unfold or_else in H.
    destruct (run a pv s g k) eqn:E.
    + injection H as ->. apply IHa in E as (pv' & s' & g' & E & Hl & Hn).
      exists pv', s', g'. repeat split; [exact E|lia|].
      intros Hne. apply andb_prop in Hne as [Hne _]. auto.
    + apply IHb in H as (pv' & s' & g' & H & Hl & Hn).
      exists pv', s', g'. repeat split; [exact H|lia|].
      intros Hne. apply andb_prop in Hne as [_ Hne]. auto.
  - cbn [nonempty].
    assert (Hloop : forall fuel pv s g o,
               star_loop (run a) greedy k fuel pv s g = Some o ->
               exists pv' s' g', k pv' s' g' = Some o /\ length s' <= length s).
    { clear H. induction fuel as [|fuel IHf]; intros pv0 s0 g0 o0 H;
        rewrite star_loop_unfold in H; cbn zeta in H.
      - destruct greedy; unfold or_else in H.
        + exists pv0, s0, g0. split; [exact H|lia].
        + destruct (k pv0 s0 g0) eqn:E; [|discriminate].
          exists pv0, s0, g0. split; [congruence|lia].
      - assert (Hmore : forall o1,
                   run a pv0 s0 g0 (fun pv' s' g' =>
                     if (length s' <? length s0)%nat
                     then star_loop (run a) greedy k fuel pv' s' g' else None)
                   = Some o1 ->
                   exists pv' s' g', k pv' s' g' = Some o1 /\ length s' <= length s0).
        { intros o1 H1. apply IHa in H1 as (pv1 & s1 & g1 & H1 & Hl1 & _).
          destruct (length s1 <? length s0)%nat; [|discriminate].
          apply IHf in H1 as (pv2 & s2 & g2 & H1 & Hl2).
          exists pv2, s2, g2. split; [exact H1|lia]. }
        destruct greedy; unfold or_else in H.
        + destruct (run a pv0 s0 g0 _) eqn:E.
          * injection H as ->. apply Hmore. reflexivity.
          * exists pv0, s0, g0. split; [exact H|lia].
        + destruct (k pv0 s0 g0) eqn:E.
          * exists pv0, s0, g0. split; [congruence|lia].
          * apply Hmore, H. }
    apply Hloop in H as (pv' & s' & g' & H & Hl).
    exists pv', s', g'. repeat split; [exact H|lia|discriminate].
  - apply IHa in H as (pv' & s' & g' & H & Hl & Hn).
    exists pv', s', (set_group i (consumed s s') g'). auto.
  - destruct (xorb _ _); [|discriminate].
    exists pv, s, g. repeat split; [exact H|lia|discriminate].
Qed.

Lemma match_at_rest (r : regex) i pv s m :
  match_at r i pv s = Some m ->
  length (m_rest m) <= length s
  /\ (nonempty r = true -> length (m_rest m) < length s).
Proof.
  unfold match_at. destruct (run _ _ _ _ _) as [[[pv' s'] g']|] eqn:E; [|discriminate].
  intros [= <-]. cbn [m_rest].
  apply run_inv in E as (pv1 & s1 & g1 & [= -> -> ->] & Hl & Hn). auto.
Qed.

(** The patterns that the program scans a text with ([sub], [findall])
    match no empty text, so the scan always resumes after a match. *)
Lemma scanned_patterns_nonempty :
  forallb nonempty (IRI_RX :: TOKEN_RE :: PREFIX_PATTERN :: strip_patterns) = true.
Proof. reflexivity. Qed.

(** The matcher respects pointwise equal continuations. *)
Lemma run_ext (r : regex) :
  forall (k1 k2 : kont),
    (forall pv s g, k1 pv s g = k2 pv s g) ->
    forall pv s g, run r pv s g k1 = run r pv s g k2.
Proof.
  induction r as [|p|a IHa b IHb|a IHa b IHb|greedy a IHa|i a IHa|];
    intros k1 k2 Hk pv s g; cbn [run].
  - apply Hk.
  - destruct s as [|c t]; [reflexivity|]. destruct (p c); [apply Hk|reflexivity].
  - apply IHa. intros pv' s' g'. apply IHb, Hk.
  - rewrite (IHa k1 k2 Hk), (IHb k1 k2 Hk). reflexivity.
  - generalize (length s). intros fuel. revert pv s g.
    induction fuel as [|fuel IHf]; intros pv s g;
      rewrite !star_loop_unfold; cbn zeta; rewrite Hk; [reflexivity|].
    rewrite (IHa _ (fun pv' s' g' =>
               if (length s' <? length s)%nat
               then star_loop (run a) greedy k2 fuel pv' s' g' else None)).
    + reflexivity.
    + intros pv' s' g'. destruct (length s' <? length s)%nat; [apply IHf|reflexivity].
  - apply IHa. intros pv' s' g'. apply Hk.
  - destruct (xorb _ _); [apply Hk|reflexivity].
Qed.

(** A repetition never uses up its fuel: any amount that is at least
    the length of the input gives the same result. *)
Lemma star_loop_fuel (a : regex) (greedy : bool) (k : kont) (n : nat) :
  forall m pv s g,
    length s <= n -> length s <= m ->
    star_loop (run a) greedy k n pv s g = star_loop (run a) greedy k m pv s g.
Proof.
  assert (Hstuck : forall pv g (K : kont),
             (forall pv' s' g', K pv' s' g' = None) -> run a pv [] g K = None).
  { intros pv g K HK. destruct (run a pv [] g K) eqn:E; [|reflexivity].
    apply run_inv in E as (pv' & s' & g' & E & _). rewrite HK in E. discriminate. }
  induction n as [|n IH]; intros m pv s g Hn Hm; rewrite !star_loop_unfold; cbn zeta.
  - destruct s; [|simpl in Hn; lia]. destruct m as [|m]; [reflexivity|].
    rewrite Hstuck; [reflexivity|]. intros pv' s' g'. reflexivity.
  - destruct m as [|m].
    + destruct s; [|simpl in Hm; lia].
      rewrite Hstuck; [reflexivity|]. intros pv' s' g'. reflexivity.
    + rewrite (run_ext a _ (fun pv' s' g' =>
                 if (length s' <? length s)%nat
                 then star_loop (run a) greedy k m pv' s' g' else None)).
      * reflexivity.
      * intros pv' s' g'. destruct (length s' <? length s)%nat eqn:E; [|reflexivity].
        apply Nat.ltb_lt in E. apply IH; lia.
Qed.

(** *** Text utilities *)

Lemma lead_lstrip (p : ascii -> bool) (s : str) :
  lead_with p s ++ lstrip_with p s = s.
Proof.
  induction s as [|c s IH]; simpl; [reflexivity|].
  destruct (p c); simpl; [f_equal; exact IH|reflexivity].
Qed.

Lemma consumed_app (u s : str) : consumed (u ++ s) s = u.
Proof.
  unfold consumed. rewrite length_app.
  replace (length u + length s - length s) with (length u) by lia.
  apply take_app_length.
Qed.

(** *** The matcher on a repeated character class *)

Lemma star_loop_chr (p : ascii -> bool) (k : kont) (s : str) :
  forall fuel pv g, length s <= fuel ->
    star_loop (run (Chr p)) true k fuel pv s g = star_chr p pv s g k.
Proof.
  induction s as [|c t IH]; intros fuel pv g Hf.
  - destruct fuel; reflexivity.
  - destruct fuel as [|fuel]; [simpl in Hf; lia|].
    simpl. destruct (p c); [|reflexivity].
    replace (length t <? S (length t))%nat with true
      by (symmetry; apply Nat.ltb_lt; lia).
    rewrite IH by (simpl in Hf; lia). reflexivity.
Qed.

(** When the rest of the pattern cannot start with a character of the
    class, the repetition takes the whole run and never gives back. *)
Lemma star_chr_commit (p : ascii -> bool) (k : kont) (s : str) :
  (forall pv c t g, p c = true -> k pv (c :: t) g = None) ->
  forall pv g,
    star_chr p pv s g k
    = k (prev_after pv (lead_with p s)) (lstrip_with p s) g.
Proof.
  intros Hk. induction s as [|c t IH]; intros pv g; simpl; [reflexivity|].
  destruct (p c) eqn:Hp; [|reflexivity].
  rewrite IH.
  assert (prev_after (Some c) (lead_with p t) = prev_after pv (c :: lead_with p t)) as ->.
  { unfold prev_after. rewrite last_cons. destruct (last (lead_with p t)); reflexivity. }
  destruct (k _ (lstrip_with p t) g) eqn:E; simpl; [reflexivity|].
  apply Hk, Hp.
Qed.

Lemma uri_char_not_space c : isspace c = true -> uri_char c = false.
Proof. intros H. unfold uri_char. rewrite H. apply andb_false_r. Qed.

Lemma uri_char_not_gt c : uri_char c = true -> Ascii.eqb ">" c = false.
Proof.
  unfold uri_char. intros H. apply andb_prop in H as [H _].
  rewrite Ascii.eqb_sym. destruct (Ascii.eqb c ">"); [discriminate|reflexivity].
Qed.

Lemma uri_char_space c : uri_char c = true -> isspace c = false.
Proof.
  unfold uri_char. intros H. apply andb_prop in H as [_ H].
  destruct (isspace c); [discriminate|reflexivity].
Qed.

Lemma space_not_gt c : isspace c = true -> Ascii.eqb ">" c = false.
Proof.
  destruct (Ascii.eqb ">" c) eqn:E; [|reflexivity].
  apply Ascii.eqb_eq in E. subst c. discriminate.
Qed.

Lemma match_at_IRI (i : nat) (pv : option ascii) (s : str) :
  match_at IRI_RX i pv s = option_map (iri_match i) (iri_at s).
Proof.
  unfold match_at, IRI_RX, iri_at. simpl seqs. unfold lit, star, plus.
  destruct s as [|c t]; [reflexivity|].
  cbn [run]. destruct (Ascii.eqb "<" c) eqn:Hc; [|reflexivity].
  rewrite (star_loop_chr isspace) by lia.
  rewrite star_chr_commit.
  2:{ intros pv' c' t' g' Hs. cbn [run]. rewrite (uri_char_not_space _ Hs). reflexivity. }
  set (t1 := lstrip_with isspace t).
  destruct t1 as [|c1 t1'] eqn:Ht1; [reflexivity|].
  cbn [run lead_with]. destruct (uri_char c1) eqn:Hu; [|reflexivity].
  rewrite (star_loop_chr uri_char) by lia.
  rewrite star_chr_commit.
  2:{ intros pv' c' t' g' Hs.
      cbn [run]. rewrite (star_loop_chr isspace) by lia. cbn [star_chr].
      rewrite (uri_char_space _ Hs), (uri_char_not_gt _ Hs). reflexivity. }
  rewrite (star_loop_chr isspace) by lia.
  rewrite star_chr_commit.
  2:{ intros pv' c' t' g' Hs. cbn [run]. rewrite (space_not_gt _ Hs). reflexivity. }
  cbn [lstrip_with run]. rewrite Hu.
  set (t2 := lstrip_with isspace (lstrip_with uri_char t1')).
  destruct t2 as [|d rest] eqn:Ht2; [reflexivity|].
  destruct (Ascii.eqb ">" d) eqn:Hd; [|reflexivity].
  cbn [option_map]. unfold iri_match, set_group. cbn [fst snd].
  apply Ascii.eqb_eq in Hd. subst d.
  replace (consumed (c1 :: t1') (lstrip_with uri_char t1'))
    with (c1 :: lead_with uri_char t1'); [reflexivity|].
  rewrite <- (lead_lstrip uri_char t1') at 2.
  symmetry. apply (consumed_app (c1 :: lead_with uri_char t1')).
Qed.

(** *** The scan *)

(** More fuel than the length of the input is never used. *)
Lemma segments_fuel (r : regex) (n : nat) :
  forall n' i pv s, length s < n -> length s < n' ->
    segments n r i pv s = segments n' r i pv s.
Proof.
  induction n as [|n IH]; intros n' i pv s Hn Hn'; [lia|].
  destruct n' as [|n']; [lia|].
  cbn [segments].
  assert (Hskip : match s with
                  | [] => []
                  | c :: t => Lit c :: segments n r (S i) (Some c) t
                  end
                  = match s with
                    | [] => []
                    | c :: t => Lit c :: segments n' r (S i) (Some c) t
                    end).
  { destruct s as [|c t]; [reflexivity|]. simpl in Hn, Hn'.
    f_equal. apply IH; lia. }
  destruct (match_at r i pv s) as [m|]; [|exact Hskip].
  destruct (length (m_rest m) <? length s)%nat eqn:E.
  - apply Nat.ltb_lt in E. f_equal. apply IH; lia.
  - f_equal. exact Hskip.
Qed.

Lemma sub_sub_at r f s : sub r f s = sub_at r f 0 None s.
Proof. reflexivity. Qed.

Lemma sub_at_skip r f i pv c t :
  match_at r i pv (c :: t) = None ->
  sub_at r f i pv (c :: t) = c :: sub_at r f (S i) (Some c) t.
Proof.
  intros H. unfold sub_at. cbn [segments length]. rewrite H. reflexivity.
Qed.

Lemma sub_at_nil r f i pv :
  match_at r i pv [] = None -> sub_at r f i pv [] = [].
Proof. intros H. unfold sub_at. cbn [segments length]. rewrite H. reflexivity. Qed.

Lemma sub_at_match r f i pv s m :
  match_at r i pv s = Some m -> length (m_rest m) < length s ->
  sub_at r f i pv s
  = f m ++ sub_at r f (i + length (m_text m)) (m_prev m) (m_rest m).
Proof.
  intros H Hl. unfold sub_at. cbn [segments]. rewrite H.
  apply Nat.ltb_lt in Hl as Hl'. rewrite Hl'.
  cbn [map concat render]. f_equal.
  rewrite (segments_fuel r (length s) (S (length (m_rest m)))); [reflexivity|lia|lia].
Qed.

(** *** Bracketed resource identifiers *)

Lemma lstrip_suffix p s : exists u, s = u ++ lstrip_with p s.
Proof. exists (lead_with p s). symmetry. apply lead_lstrip. Qed.

(** A match is the consumed text followed by the rest, and is not empty. *)
Lemma iri_at_split s txt u rest :
  iri_at s = Some (txt, u, rest) -> s = txt ++ rest /\ length rest < length s.
Proof.
  unfold iri_at. destruct s as [|c t]; [discriminate|].
  destruct (Ascii.eqb "<" c); [|discriminate].
  set (t1 := lstrip_with isspace t).
  set (t2 := lstrip_with isspace (lstrip_with uri_char t1)).
  assert (exists v, t = v ++ t2) as [v Hv].
  { destruct (lstrip_suffix isspace t) as [a Ha].
    destruct (lstrip_suffix uri_char t1) as [b Hb].
    destruct (lstrip_suffix isspace (lstrip_with uri_char t1)) as [d Hd].
    exists (a ++ b ++ d). fold t1 in Ha. fold t2 in Hd.
    rewrite <- !app_assoc. rewrite <- Hd, <- Hb. exact Ha. }
  destruct (lead_with uri_char t1); [discriminate|].
  destruct t2 as [|d rest']; [discriminate|].
  destruct (Ascii.eqb ">" d); [|discriminate].
  intros [= <- <- <-].
  assert (c :: t = (c :: v ++ [d]) ++ rest') as E.
  { rewrite Hv. simpl. rewrite <- app_assoc. reflexivity. }
  split.
  - rewrite E at 2. rewrite consumed_app. exact E.
  - rewrite E. simpl. rewrite !length_app. simpl. lia.
Qed.

Lemma replace_uri_iri_match i x :
  _replace_uri (iri_match i x) = collapse_iri (fst (fst x)) (snd (fst x)).
Proof. reflexivity. Qed.

Lemma collapse_from_step i pv s :
  collapse_from i pv s
  = match iri_at s with
    | Some (txt, u, rest) =>
        collapse_iri txt u ++ collapse_from (i + length txt) (Some ">"%char) rest
    | None =>
        match s with
        | [] => []
        | c :: t => c :: collapse_from (S i) (Some c) t
        end
    end.
Proof.
  unfold collapse_from.
  pose proof (match_at_IRI i pv s) as Hm.
  destruct (iri_at s) as [[[txt u] rest]|] eqn:E; cbn [option_map] in Hm.
  - apply iri_at_split in E as [_ Hl].
    rewrite (sub_at_match _ _ _ _ _ _ Hm Hl). reflexivity.
  - destruct s as [|c t]; [apply sub_at_nil, Hm|apply sub_at_skip, Hm].
Qed.

Lemma collapse_from_indep s : forall i pv, collapse_from i pv s = collapse_from 0 None s.
Proof.
  induction s as [s IH] using (induction_ltof1 _ (@length ascii)).
  unfold ltof in IH. intros i pv.
  rewrite (collapse_from_step i pv s), (collapse_from_step 0 None s).
  destruct (iri_at s) as [[[txt u] rest]|] eqn:E.
  - apply iri_at_split in E as [_ Hl].
    rewrite (IH rest Hl (i + length txt)), (IH rest Hl (0 + length txt)). reflexivity.
  - destruct s as [|c t]; [reflexivity|].
    rewrite (IH t (Nat.lt_succ_diag_r _) (S i)), (IH t (Nat.lt_succ_diag_r _) 1).
    reflexivity.
Qed.

Lemma collapse_body_step s :
  collapse_body s
  = match iri_at s with
    | Some (txt, u, rest) => collapse_iri txt u ++ collapse_body rest
    | None =>
        match s with
        | [] => []
        | c :: t => c :: collapse_body t
        end
    end.
Proof.
  unfold collapse_body. rewrite !sub_sub_at.
  change (sub_at IRI_RX _replace_uri 0 None s) with (collapse_from 0 None s).
  rewrite collapse_from_step.
  destruct (iri_at s) as [[[txt u] rest]|].
  - rewrite collapse_from_indep. reflexivity.
  - destruct s as [|c t]; [reflexivity|]. rewrite collapse_from_indep. reflexivity.
Qed.

(** *** The SELECT keyword *)

Lemma ci_word (c x : ascii) : ci c x = true -> isword x = true -> isword c = true.
Proof.
  unfold ci. intros H Hx. apply Ascii.eqb_eq in H.
  destruct (isupper c) eqn:Hu.
  - unfold isword. rewrite Hu. rewrite orb_true_r. reflexivity.
  - unfold lower in H at 1. rewrite Hu in H. subst c.
    unfold lower in *. destruct (isupper x) eqn:Hux; [|exact Hx].
    clear Hx. revert Hu Hux. 
    destruct x as [[] [] [] [] [] [] [] []]; vm_compute; congruence.
Qed.

Lemma match_at_SELECT (i : nat) (pv : option ascii) (s : str) :
  match_at SELECT_RX i pv s = option_map (select_match i) (select_at pv s).
Proof.
  unfold match_at, SELECT_RX, select_at.
  cbn [seqs word_i list_ascii_of_string run]. unfold lit_i. cbn [run].
  fold (ci " ").
  destruct s as [|c1 [|c2 [|c3 [|c4 [|c5 [|c6 rest]]]]]];
    try (repeat match goal with
                | |- context [if ?b then _ else _] => destruct b
                end; reflexivity).
  change (lower c1 =? lower "S")%char with (ci c1 "S").
  change (lower c2 =? lower "E")%char with (ci c2 "E").
  change (lower c3 =? lower "L")%char with (ci c3 "L").
  change (lower c4 =? lower "E")%char with (ci c4 "E").
  change (lower c5 =? lower "C")%char with (ci c5 "C").
  change (lower c6 =? lower "T")%char with (ci c6 "T").
  cbn [head word_opt].
  destruct (ci c1 "S") eqn:H1;
    [|destruct (xorb _ _); rewrite andb_false_r; reflexivity].
  rewrite (ci_word _ _ H1 eq_refl).
  destruct (ci c2 "E"); [|rewrite andb_false_r; destruct (word_opt pv); reflexivity].
  destruct (ci c3 "L"); [|rewrite andb_false_r; destruct (word_opt pv); reflexivity].
  destruct (ci c4 "E"); [|rewrite andb_false_r; destruct (word_opt pv); reflexivity].
  destruct (ci c5 "C"); [|rewrite andb_false_r; destruct (word_opt pv); reflexivity].
  destruct (ci c6 "T") eqn:H6; [|rewrite andb_false_r; destruct (word_opt pv); reflexivity].
  rewrite (ci_word _ _ H6 eq_refl).
  destruct (word_opt pv); [reflexivity|].
  cbn [xorb negb andb].
  destruct (word_opt (head rest)); cbn [negb option_map]; [reflexivity|].
  unfold select_match; cbn [fst snd]. do 2 f_equal.
  apply (consumed_app [c1; c2; c3; c4; c5; c6]).
Qed.

(** A match of the keyword does not depend on what stands before it,
    once it is there. *)
Lemma select_at_start pv s x : select_at pv s = Some x -> select_at None s = Some x.
Proof.
  unfold select_at.
  destruct s as [|c1 [|c2 [|c3 [|c4 [|c5 [|c6 rest]]]]]]; try discriminate.
  destruct (word_opt pv); [discriminate|]. tauto.
Qed.

(** *** Search *)

Lemma search_from_inv (r : regex) (s : str) :
  forall i pv m, search_from r i pv s = Some m ->
    exists pre post,
      s = pre ++ post /\ match_at r (i + length pre) (prev_after pv pre) post = Some m.
Proof.
  induction s as [|c t IH]; intros i pv m H; cbn [search_from] in H.
  - exists [], []. split; [reflexivity|].
    destruct (match_at r i pv []) eqn:E; [|discriminate].
    rewrite Nat.add_0_r. cbn [prev_after last]. congruence.
  - destruct (match_at r i pv (c :: t)) eqn:E.
    + exists [], (c :: t). split; [reflexivity|]. rewrite Nat.add_0_r.
      cbn [prev_after last]. congruence.
    + apply IH in H as (pre & post & -> & Hm).
      exists (c :: pre), post. split; [reflexivity|].
      cbn [length]. rewrite Nat.add_succ_r.
      assert (prev_after pv (c :: pre) = prev_after (Some c) pre) as ->; [|exact Hm].
      unfold prev_after. rewrite last_cons. destruct (last pre); reflexivity.
Qed.

Lemma search_here (r : regex) (s : str) (m : match_obj) :
  match_at r 0 None s = Some m -> search r s = Some m.
Proof.
  intros H. unfold search. destruct s; cbn [search_from]; rewrite H; reflexivity.
Qed.

(** The start of a match object is the position it was found at. *)
Lemma match_at_start r i pv s m : match_at r i pv s = Some m -> m_start m = i.
Proof.
  unfold match_at. destruct (run _ _ _ _ _) as [[[? ?] ?]|]; [|discriminate].
  intros [= <-]. reflexivity.
Qed.

Lemma search_SELECT_inv (s : str) (m : match_obj) :
  search SELECT_RX s = Some m ->
  exists x, select_at None (drop (m_start m) s) = Some x
            /\ m = select_match (m_start m) x.
Proof.
  intros H. apply search_from_inv in H as (pre & post & -> & Hm).
  pose proof (match_at_start _ _ _ _ _ Hm) as Hs. simpl in Hs.
  rewrite match_at_SELECT in Hm.
  destruct (select_at _ post) as [x|] eqn:E; [|discriminate].
  exists x. rewrite Hs, drop_app_length. split; [eapply select_at_start, E|].
  cbn [option_map] in Hm. simpl in Hm. congruence.
Qed.

(** *** Runs of a character class *)

Lemma lead_with_all p s : forallb p (lead_with p s) = true.
Proof.
  induction s as [|c s IH]; simpl; [reflexivity|].
  destruct (p c) eqn:E; simpl; [rewrite E; exact IH|reflexivity].
Qed.

Lemma lstrip_with_stopped p s : stopped p (lstrip_with p s) = true.
Proof.
  induction s as [|c s IH]; simpl; [reflexivity|].
  destruct (p c) eqn:E; [exact IH|]. simpl. rewrite E. reflexivity.
Qed.

Lemma lstrip_with_id p s : stopped p s = true -> lstrip_with p s = s.
Proof.
  destruct s as [|c s]; simpl; [reflexivity|].
  destruct (p c); [discriminate|reflexivity].
Qed.

Lemma lead_with_nil p s : stopped p s = true -> lead_with p s = [].
Proof.
  destruct s as [|c s]; simpl; [reflexivity|].
  destruct (p c); [discriminate|reflexivity].
Qed.

Lemma lstrip_with_app p w s :
  forallb p w = true -> stopped p s = true -> lstrip_with p (w ++ s) = s.
Proof.
  intros Hw Hs. induction w as [|c w IH]; simpl; [apply lstrip_with_id, Hs|].
  simpl in Hw. apply andb_prop in Hw as [-> Hw]. apply IH, Hw.
Qed.

Lemma lead_with_app p w s :
  forallb p w = true -> stopped p s = true -> lead_with p (w ++ s) = w.
Proof.
  intros Hw Hs. induction w as [|c w IH]; simpl; [apply lead_with_nil, Hs|].
  simpl in Hw. apply andb_prop in Hw as [-> Hw]. f_equal. apply IH, Hw.
Qed.

Lemma lstrip_with_app_stop p x y :
  stopped p y = true -> y <> [] -> lstrip_with p (x ++ y) = lstrip_with p x ++ y.
Proof.
  intros Hy Hn. induction x as [|c x IH]; simpl; [apply lstrip_with_id, Hy|].
  destruct (p c); [exact IH|reflexivity].
Qed.

(** *** The shape of a bracketed identifier *)

Lemma iri_at_inv s txt u rest :
  iri_at s = Some (txt, u, rest) ->
  exists w1 w2,
    s = bracketed w1 u w2 ++ rest /\ txt = bracketed w1 u w2
    /\ forallb isspace w1 = true /\ forallb uri_char u = true /\ u <> []
    /\ forallb isspace w2 = true.
Proof.
  intros H. pose proof (iri_at_split _ _ _ _ H) as [Hs _].
  unfold iri_at in H. destruct s as [|c t]; [discriminate|].
  destruct (Ascii.eqb "<" c) eqn:Hc; [|discriminate].
  apply Ascii.eqb_eq in Hc. subst c.
  set (t1 := lstrip_with isspace t) in *.
  set (t2 := lstrip_with isspace (lstrip_with uri_char t1)) in *.
  destruct (lead_with uri_char t1) as [|c1 u'] eqn:Hu; [discriminate|].
  destruct t2 as [|d rest'] eqn:Ht2; [discriminate|].
  destruct (Ascii.eqb ">" d) eqn:Hd; [|discriminate].
  apply Ascii.eqb_eq in Hd. subst d.
  injection H as Ht <- <-.
  exists (lead_with isspace t), (lead_with isspace (lstrip_with uri_char t1)).
  assert (E : "<"%char :: t
              = bracketed (lead_with isspace t) (c1 :: u')
                  (lead_with isspace (lstrip_with uri_char t1)) ++ rest').
  { pose proof (lead_lstrip isspace t) as E1. fold t1 in E1.
    pose proof (lead_lstrip uri_char t1) as E2. rewrite Hu in E2.
    pose proof (lead_lstrip isspace (lstrip_with uri_char t1)) as E3.
    fold t2 in E3. rewrite Ht2 in E3.
    unfold bracketed.
    rewrite <- E1 at 1. rewrite <- E2 at 1. rewrite <- E3 at 1.
    cbn [app]. repeat (rewrite <- app_assoc; cbn [app]). reflexivity. }
  split; [exact E|].
  split.
  { rewrite <- Ht. rewrite E at 1. apply consumed_app. }
  split; [apply lead_with_all|].
  split; [rewrite <- Hu; apply lead_with_all|].
  split; [discriminate|apply lead_with_all].
Qed.

Lemma uri_char_stops_space u s :
  forallb uri_char u = true -> u <> [] -> stopped isspace (u ++ s) = true.
Proof.
  destruct u as [|c u]; [congruence|]. simpl. intros H _.
  apply andb_prop in H as [H _]. rewrite (uri_char_space _ H). reflexivity.
Qed.

Lemma iri_at_intro w1 u w2 rest :
  forallb isspace w1 = true -> forallb uri_char u = true -> u <> [] ->
  forallb isspace w2 = true ->
  iri_at (bracketed w1 u w2 ++ rest) = Some (bracketed w1 u w2, u, rest).
Proof.
  intros H1 Hu Hn H2. unfold iri_at, bracketed. cbn [app].
  rewrite Ascii.eqb_refl. rewrite <- !app_assoc.
  rewrite (lstrip_with_app isspace w1) by (auto using uri_char_stops_space).
  assert (Hs2 : stopped uri_char (w2 ++ [">"%char] ++ rest) = true).
  { destruct w2 as [|c w2]; [reflexivity|]. simpl in *.
    apply andb_prop in H2 as [H2 _]. rewrite (uri_char_not_space _ H2). reflexivity. }
  rewrite (lead_with_app uri_char u) by assumption.
  rewrite (lstrip_with_app uri_char u) by assumption.
  rewrite (lstrip_with_app isspace w2) by (assumption || reflexivity).
  destruct u as [|c u]; [congruence|].
  cbn [app]. rewrite Ascii.eqb_refl. do 2 f_equal. f_equal.
  set (txt := "<"%char :: w1 ++ c :: u ++ w2 ++ [">"%char]).
  assert ("<"%char :: w1 ++ c :: u ++ w2 ++ ">"%char :: rest = txt ++ rest) as ->.
  { unfold txt. cbn [app]. repeat (rewrite <- app_assoc; cbn [app]). reflexivity. }
  apply consumed_app.
Qed.

(** A match does not depend on what follows it. *)
Lemma iri_at_local s txt u rest y :
  iri_at s = Some (txt, u, rest) -> iri_at (txt ++ y) = Some (txt, u, y).
Proof.
  intros H. apply iri_at_inv in H as (w1 & w2 & _ & -> & H1 & Hu & Hn & H2).
  apply iri_at_intro; assumption.
Qed.

Lemma iri_at_other c t : c <> "<"%char -> iri_at (c :: t) = None.
Proof.
  intros H. unfold iri_at. destruct (Ascii.eqb "<" c) eqn:E; [|reflexivity].
  apply Ascii.eqb_eq in E. congruence.
Qed.

Lemma collapse_body_frame a t :
  no_lt a = true -> collapse_body (a ++ t) = a ++ collapse_body t.
Proof.
  intros H. induction a as [|c a IH]; [reflexivity|].
  simpl in H. apply andb_prop in H as [Hc Ha].
  cbn [app]. rewrite collapse_body_step.
  rewrite iri_at_other; [rewrite (IH Ha); reflexivity|].
  intros ->. discriminate.
Qed.

Lemma collapse_body_nil : collapse_body [] = [].
Proof. reflexivity. Qed.

(** *** Stripping *)

Lemma rstrip_with_id p s : stopped p (rev s) = true -> rstrip_with p s = s.
Proof.
  intros H. unfold rstrip_with. rewrite lstrip_with_id by exact H.
  apply rev_involutive.
Qed.

Lemma strip_id s : stopped isspace s = true -> ends_ok s = true -> strip s = s.
Proof.
  intros H1 H2. unfold strip. rewrite (lstrip_with_id _ _ H1).
  apply rstrip_with_id, H2.
Qed.

Lemma strip_ends_ok s : ends_ok (strip s) = true.
Proof.
  unfold ends_ok, strip, rstrip_with. rewrite rev_involutive.
  apply lstrip_with_stopped.
Qed.

Lemma rev_not_nil {A} (l : list A) : l <> [] -> rev l <> [].
Proof.
  destruct l as [|x l]; [congruence|]. intros _ H.
  apply (f_equal (@length A)) in H. rewrite length_rev in H. discriminate.
Qed.

Lemma rstrip_with_app_keep p a b :
  stopped p (rev a) = true -> a <> [] ->
  rstrip_with p (a ++ b) = a ++ rstrip_with p b.
Proof.
  intros Ha Hn. unfold rstrip_with. rewrite rev_app_distr.
  rewrite lstrip_with_app_stop by (auto using rev_not_nil).
  rewrite rev_app_distr, rev_involutive. reflexivity.
Qed.

Lemma rstrip_with_prefix p b : exists w, b = rstrip_with p b ++ w.
Proof.
  exists (rev (lead_with p (rev b))). unfold rstrip_with.
  rewrite <- rev_app_distr, lead_lstrip. symmetry. apply rev_involutive.
Qed.

Lemma stopped_app p x y : x <> [] -> stopped p (x ++ y) = stopped p x.
Proof. destruct x; [congruence|reflexivity]. Qed.

Lemma ends_ok_app a b : b <> [] -> ends_ok (a ++ b) = ends_ok b.
Proof.
  intros H. unfold ends_ok. rewrite rev_app_distr.
  apply stopped_app, rev_not_nil, H.
Qed.

Lemma ends_ok_cons c t : t <> [] -> ends_ok (c :: t) = ends_ok t.
Proof. apply (ends_ok_app [c]). Qed.

Lemma ends_ok_snoc a c : ends_ok (a ++ [c]) = negb (isspace c).
Proof. unfold ends_ok. rewrite rev_app_distr. reflexivity. Qed.

(** *** Classes preserved by the text operations *)

Lemma forallb_lstrip_with q p s :
  forallb q s = true -> forallb q (lstrip_with p s) = true.
Proof.
  induction s as [|c s IH]; simpl; [reflexivity|].
  intros H. destruct (p c); [|exact H].
  apply andb_prop in H as [_ H]. apply IH, H.
Qed.

Lemma forallb_drop q n (s : str) :
  forallb q s = true -> forallb q (drop n s) = true.
Proof.
  revert n. induction s as [|c s IH]; intros [|n] H; simpl; auto.
  simpl in H. apply andb_prop in H as [_ H]. apply IH, H.
Qed.

Lemma forallb_rev q (s : str) : forallb q s = true -> forallb q (rev s) = true.
Proof.
  intros H. apply forallb_forall. intros x Hx.
  apply in_rev in Hx. revert x Hx. apply forallb_forall, H.
Qed.

Lemma forallb_strip q s : forallb q s = true -> forallb q (strip s) = true.
Proof.
  intros H. unfold strip, rstrip_with.
  auto using forallb_rev, forallb_lstrip_with.
Qed.

(** *** The replacement of one bracketed identifier *)

Lemma replace_with_inv order uri out :
  replace_with order uri = Some out ->
  exists ns prefix,
    In (ns, prefix) order /\ startswith uri ns = true
    /\ out = prefix ++ ":" ++ lstrip_colon (drop (length ns) uri).
Proof.
  induction order as [|[ns prefix] order IH]; simpl; [discriminate|].
  destruct (startswith uri ns) eqn:E.
  - intros [= <-]. exists ns, prefix. auto.
  - intros H. destruct (IH H) as (ns' & p' & Hin & Hs & Ho).
    exists ns', p'. auto.
Qed.

Lemma prefixes_plain :
  forallb (fun e => no_lt (snd e) && forallb (fun c => negb (isspace c)) (snd e)
                    && negb (is_nil (snd e)))
          _PREFIX_ORDER = true.
Proof. vm_compute. reflexivity. Qed.

Lemma prefix_plain ns prefix :
  In (ns, prefix) _PREFIX_ORDER ->
  no_lt prefix = true /\ prefix <> [].
Proof.
  intros H. pose proof prefixes_plain as Hp.
  rewrite forallb_forall in Hp. specialize (Hp _ H). cbn [snd] in Hp.
  apply andb_prop in Hp as [Hp Hn]. apply andb_prop in Hp as [Hp _].
  split; [exact Hp|]. intros ->. discriminate.
Qed.

Lemma no_lt_app a b : no_lt (a ++ b) = no_lt a && no_lt b.
Proof. apply forallb_app. Qed.

Lemma replaced_no_lt u out :
  no_lt u = true -> replace_with _PREFIX_ORDER (strip u) = Some out ->
  no_lt out = true.
Proof.
  intros Hu H. apply replace_with_inv in H as (ns & p & Hin & _ & ->).
  destruct (prefix_plain _ _ Hin) as [Hp _].
  rewrite !no_lt_app, Hp. cbn [no_lt forallb andb]. simpl.
  apply forallb_lstrip_with, forallb_drop, forallb_strip, Hu.
Qed.

Lemma ends_ok_nonspace s :
  forallb (fun c => negb (isspace c)) s = true -> ends_ok s = true.
Proof.
  intros H. apply (forallb_rev _ s) in H. unfold ends_ok.
  destruct (rev s) as [|c r]; [reflexivity|]. simpl in *.
  apply andb_prop in H as [H _]. exact H.
Qed.

Lemma uri_chars_nonspace u :
  forallb uri_char u = true -> forallb (fun c => negb (isspace c)) u = true.
Proof.
  intros H. apply forallb_forall. intros c Hc.
  rewrite forallb_forall in H. rewrite (uri_char_space _ (H _ Hc)). reflexivity.
Qed.

Lemma collapse_iri_shape s txt u rest :
  iri_at s = Some (txt, u, rest) ->
  ends_ok (collapse_iri txt u) = true /\ collapse_iri txt u <> [].
Proof.
  intros H. apply iri_at_inv in H as (w1 & w2 & _ & -> & _ & Hu & _ & _).
  unfold collapse_iri.
  destruct (replace_with _ _) as [out|] eqn:E.
  - apply replace_with_inv in E as (ns & p & Hin & _ & ->).
    destruct (prefix_plain _ _ Hin) as [_ Hp].
    split; [|destruct p; [congruence|discriminate]].
    set (r := lstrip_colon (drop (length ns) (strip u))).
    assert (Hr : forallb (fun c => negb (isspace c)) r = true).
    { apply forallb_lstrip_with, forallb_drop, forallb_strip, uri_chars_nonspace, Hu. }
    destruct r as [|c r'] eqn:Er.
    + rewrite app_nil_r. apply ends_ok_snoc.
    + rewrite app_assoc. rewrite ends_ok_app by discriminate.
      apply ends_ok_nonspace, Hr.
  - split; [|discriminate]. unfold bracketed.
    rewrite !app_comm_cons, !app_assoc. apply ends_ok_snoc.
Qed.

(** *** The collapsing pass keeps a text in shape *)

Lemma collapse_body_not_nil s : s <> [] -> collapse_body s <> [].
Proof.
  intros Hs. rewrite collapse_body_step.
  destruct (iri_at s) as [[[txt u] rest]|] eqn:E.
  - destruct (collapse_iri_shape _ _ _ _ E) as [_ Hn].
    destruct (collapse_iri txt u); [congruence|discriminate].
  - destruct s; [congruence|discriminate].
Qed.

Lemma collapse_body_ends_ok s : ends_ok s = true -> ends_ok (collapse_body s) = true.
Proof.
  induction s as [s IH] using (induction_ltof1 _ (@length ascii)).
  unfold ltof in IH. intros Hs. rewrite collapse_body_step.
  destruct (iri_at s) as [[[txt u] rest]|] eqn:E.
  - destruct (iri_at_split _ _ _ _ E) as [Hsplit Hl].
    destruct (collapse_iri_shape _ _ _ _ E) as [He _].
    destruct rest as [|c rest'].
    + rewrite collapse_body_nil, app_nil_r. exact He.
    + rewrite ends_ok_app by (apply collapse_body_not_nil; discriminate).
      apply IH; [exact Hl|]. rewrite Hsplit in Hs.
      rewrite ends_ok_app in Hs by discriminate. exact Hs.
  - destruct s as [|c t]; [reflexivity|].
    destruct t as [|c' t'].
    + rewrite collapse_body_nil. exact Hs.
    + rewrite ends_ok_cons by (apply collapse_body_not_nil; discriminate).
      apply IH; [simpl; lia|].
      rewrite ends_ok_cons in Hs by discriminate. exact Hs.
Qed.

(** *** Texts on which a second pass finds nothing to do *)

Lemma collapse_body_idem s :
  well_bracketed s -> collapse_body (collapse_body s) = collapse_body s.
Proof.
  induction 1 as [|c t Hc Ht IH|s m Hm Hu Hr IH].
  - reflexivity.
  - rewrite (collapse_body_step (c :: t)), (iri_at_other _ _ Hc).
    rewrite (collapse_body_step (c :: _)), (iri_at_other _ _ Hc).
    rewrite IH. reflexivity.
  - rewrite match_at_IRI in Hm.
    destruct (iri_at s) as [[[txt u] rest]|] eqn:Hi; [|discriminate].
    injection Hm as <-. cbn [iri_match m_rest m_groups fst snd] in Hu, IH.
    change (group [(1, u)] 1) with u in Hu.
    rewrite (collapse_body_step s), Hi.
    unfold collapse_iri.
    destruct (replace_with _ _) as [out|] eqn:E.
    + rewrite collapse_body_frame by (eapply replaced_no_lt; eauto).
      rewrite IH. reflexivity.
    + rewrite (collapse_body_step (txt ++ _)), (iri_at_local _ _ _ _ _ Hi).
      unfold collapse_iri. rewrite E, IH. reflexivity.
Qed.

(** *** The triple-assembly loop *)

Lemma str_eqb_refl (a : str) : str_eqb a a = true.
Proof.
  induction a as [|c a IH]; simpl; [reflexivity|].
  rewrite Ascii.eqb_refl. exact IH.
Qed.

Lemma str_eqb_eq (a b : str) : str_eqb a b = true <-> a = b.
Proof.
  split; [|intros ->; apply str_eqb_refl].
  revert b. induction a as [|c a IH]; intros [|d b]; simpl; try discriminate; auto.
  intros H. apply andb_prop in H as [H1 H2].
  apply Ascii.eqb_eq in H1. f_equal; auto.
Qed.

(** C8: the block [?s ?p ?o1 , ?o2 .] yields exactly two triples sharing
    subject and predicate, and [?s ?p1 ?o1 ; ?p2 ?o2 .] yields exactly two
    triples sharing only the subject: a comma changes no slot, a
    semicolon clears the predicate slot only (and a full stop both). *)
Theorem separator_semantics :
  _extract_triples "?s ?p ?o1 , ?o2 ."
    = triples_lit [["?s"; "?p"; "?o1"]; ["?s"; "?p"; "?o2"]]
  /\ _extract_triples "?s ?p1 ?o1 ; ?p2 ?o2 ."
    = triples_lit [["?s"; "?p1"; "?o1"]; ["?s"; "?p2"; "?o2"]]
  /\ (forall st, step st "," = st)
  /\ (forall st, step st ";" = Slots (subj st) None (out st))
  /\ (forall st, step st "." = Slots None None (out st)).
Proof.
  split; [vm_compute; reflexivity|].
  split; [vm_compute; reflexivity|].
  repeat split; intros st; reflexivity.
Qed.

(** C4: on the block [FILTER(STRSTARTS(STR(?x), "http://a.b/")) ?x a
    dbo:Person .] the FILTER pattern stops at the first closing
    parenthesis, so the rest of the filter survives clause stripping and
    its string literal becomes the subject of two spurious triples; the
    triple pattern [?x a dbo:Person] is not among the result. *)
Theorem filter_nested_parentheses :
  strip_clauses filter_block = ", " ++ filter_literal ++ ")) ?x a dbo:Person ."
  /\ _extract_triples filter_block
     = [filter_literal :: strs ["?x"; "a"]; filter_literal :: strs ["?x"; "dbo:Person"]]
  /\ ~ In (strs ["?x"; "a"; "dbo:Person"]) (_extract_triples filter_block).
Proof.
  split; [vm_compute; reflexivity|].
  split; [vm_compute; reflexivity|].
  vm_compute. intros [H|[H|[]]]; discriminate H.
Qed.

(** *** The global prefix table *)

Lemma setdefault_subseteq (k v : str) (d : gmap str str) : d ⊆ setdefault k v d.
Proof.
  unfold setdefault. destruct (d !! k) eqn:E; [reflexivity|].
  apply insert_subseteq, E.
Qed.

Lemma setdefault_fold_subseteq (l : list (str * str)) (g : gmap str str) :
  g ⊆ fold_left (fun d kv => setdefault (fst kv) (snd kv) d) l g.
Proof.
  revert g. induction l as [|[k v] l IH]; intros g; simpl; [reflexivity|].
  etransitivity; [apply (setdefault_subseteq k v)|apply IH].
Qed.

Lemma merge_prefixes_subseteq (g local : gmap str str) : g ⊆ merge_prefixes g local.
Proof. apply setdefault_fold_subseteq. Qed.

(** The loop of [setdefault] calls keeps the bindings of the table and
    adds, for a key it lacks, the first binding of the list. *)
Lemma setdefault_fold_lookup (l : list (str * str)) (g : gmap str str) (k : str) :
  fold_left (fun d kv => setdefault (fst kv) (snd kv) d) l g !! k
  = match g !! k with
    | Some v => Some v
    | None => (list_to_map l : gmap str str) !! k
    end.
Proof.
  revert g. induction l as [|[k' v'] l IH]; intros g; cbn [fold_left fst snd].
  - rewrite list_to_map_nil, lookup_empty. destruct (g !! k); reflexivity.
  - rewrite IH, list_to_map_cons. unfold setdefault.
    destruct (decide (k' = k)) as [->|Hne].
    + destruct (g !! k) eqn:E; [rewrite E; reflexivity|].
      rewrite !lookup_insert_eq. reflexivity.
    + destruct (g !! k') eqn:E'.
      * destruct (g !! k); [reflexivity|]. rewrite lookup_insert_ne by exact Hne.
        reflexivity.
      * rewrite !lookup_insert_ne by exact Hne. reflexivity.
Qed.

(** Merging a record-local table is a left-biased union: the order in
    which the items of the local table are visited does not matter. *)
Lemma merge_prefixes_union (g local : gmap str str) : merge_prefixes g local = g ∪ local.
Proof.
  apply map_eq. intros k. unfold merge_prefixes.
  rewrite setdefault_fold_lookup, list_to_map_to_list, lookup_union.
  destruct (g !! k), (local !! k); reflexivity.
Qed.

Lemma parse_one_subseteq (g : gmap str str) (s : sample) : g ⊆ fst (parse_one g s).
Proof.
  unfold parse_one.
  destruct (index_answers _ _); [|reflexivity].
  destruct (search _ _); simpl; apply merge_prefixes_subseteq.
Qed.

Lemma parse_sparql_subseteq (samples : list sample) (g : gmap str str) :
  g ⊆ fst (parse_sparql g samples).
Proof.
  revert g. induction samples as [|s rest IH]; intros g; simpl; [reflexivity|].
  pose proof (parse_one_subseteq g s) as H1.
  destruct (parse_one g s) as [g1 [s'|e]]; simpl in *; [|exact H1].
  pose proof (IH g1) as H2.
  destruct (parse_sparql g1 rest) as [g2 [rest'|e]]; simpl in *;
    etransitivity; eauto.
Qed.

Lemma split_colon_app (p tl : str) :
  no_colon p = true -> split_colon (p ++ ":" ++ tl) = (p, Some tl).
Proof.
  intros H. induction p as [|c p IH]; [reflexivity|].
  cbn [no_colon forallb] in H. apply andb_prop in H as [Hc Hp].
  cbn [app split_colon]. destruct (Ascii.eqb c ":"); [discriminate|].
  rewrite (IH Hp). reflexivity.
Qed.

(** The records that come out do not depend on the global table. *)
Lemma parse_one_result_global (g g' : gmap str str) (s : sample) :
  snd (parse_one g s) = snd (parse_one g' s).
Proof.
  unfold parse_one.
  destruct (index_answers _ _); [|reflexivity].
  destruct (search _ _); reflexivity.
Qed.

Lemma parse_sparql_result_global (samples : list sample) (g g' : gmap str str) :
  snd (parse_sparql g samples) = snd (parse_sparql g' samples).
Proof.
  revert g g'. induction samples as [|s rest IH]; intros g g'; simpl; [reflexivity|].
  pose proof (parse_one_result_global g g' s) as H1.
  destruct (parse_one g s) as [g1 r1], (parse_one g' s) as [g1' r1'].
  simpl in H1. subst r1'. destruct r1 as [s'|e]; [|reflexivity].
  pose proof (IH g1 g1') as H2.
  destruct (parse_sparql g1 rest) as [g2 r2], (parse_sparql g1' rest) as [g2' r2'].
  simpl in H2. subst r2'. destruct r2; reflexivity.
Qed.

(** C9: the global prefix table is empty at construction, and whatever
    records are processed from whatever table, every binding of the
    table before is a binding of the table after (no entry is removed or
    overwritten, the key set only grows); a record that declares an
    existing prefix again with another namespace leaves the earlier
    binding in place. *)
Theorem global_prefixes_monotone :
  init = ∅
  /\ (forall (g : gmap str str) (samples : list sample),
        g ⊆ fst (parse_sparql g samples))
  /\ (forall (g : gmap str str) (samples : list sample),
        dom g ⊆ dom (fst (parse_sparql g samples)))
  /\ fst (parse_sparql init [record_A; record_A']) !! ("ex" : str)
     = Some ("http://ex.org/" : str).
Proof.
  split; [reflexivity|].
  split; [intros; apply parse_sparql_subseteq|].
  split; [intros; apply subseteq_dom, parse_sparql_subseteq|].
  vm_compute. reflexivity.
Qed.

(** C1 as stated fails: processing record A and then record B from an
    empty table, the table binds [ex], yet the triple of record B keeps
    the token [ex:Foo] and does not carry the namespace of record A. *)
Lemma global_fallback_absent :
  fst (parse_sparql init [record_A; record_B]) !! ("ex" : str)
    = Some ("http://ex.org/" : str)
  /\ triples_out (parse_sparql init [record_A; record_B])
     = Some [triples_lit [["?x"; "a"; "http://ex.org/:Bar"]];
             triples_lit [["?x"; "a"; "ex:Foo"]]]
  /\ triples_out (parse_sparql init [record_A; record_B])
     <> Some [triples_lit [["?x"; "a"; "http://ex.org/:Bar"]];
              triples_lit [["?x"; "a"; "http://ex.org/:Foo"]]]
  /\ triples_out (parse_sparql init [record_A; record_B])
     <> Some [triples_lit [["?x"; "a"; "http://ex.org/:Bar"]];
              triples_lit [["?x"; "a"; "http://ex.org/Foo"]]].
Proof.
  split; [vm_compute; reflexivity|].
  split; [vm_compute; reflexivity|].
  split; vm_compute; discriminate.
Qed.

(** C1 as amended: the declaration of record A is recorded in the global
    table, but expansion consults the record-local table only: the
    records returned never depend on the global table, a token whose
    prefix the record itself does not declare is emitted unchanged, and
    so record B keeps [ex:Foo]. *)
Theorem expansion_is_record_local :
  (forall (g g' : gmap str str) (samples : list sample),
      snd (parse_sparql g samples) = snd (parse_sparql g' samples))
  /\ (forall (local : gmap str str) (p tl : str),
        no_colon p = true -> local !! p = None ->
        expand local (p ++ ":" ++ tl) = p ++ ":" ++ tl)
  /\ fst (parse_sparql init [record_A; record_B]) !! ("ex" : str)
     = Some ("http://ex.org/" : str)
  /\ (forall g : gmap str str,
        triples_out (parse_sparql g [record_A; record_B])
        = Some [triples_lit [["?x"; "a"; "http://ex.org/:Bar"]];
                triples_lit [["?x"; "a"; "ex:Foo"]]]).
Proof.
  split; [intros; apply parse_sparql_result_global|].
  split.
  { intros local p tl Hp Hl. unfold expand.
    rewrite (split_colon_app p tl Hp), Hl. reflexivity. }
  split; [vm_compute; reflexivity|].
  intros g. unfold triples_out.
  rewrite (parse_sparql_result_global _ g init). vm_compute. reflexivity.
Qed.

Lemma expansion_is_record_local_witness :
  no_colon "ex" = true
  /\ (∅ : gmap str str) !! ("ex" : str) = None
  /\ expand ∅ ("ex:Foo" : str) = ("ex:Foo" : str).
Proof.
  split; [reflexivity|]. split; [reflexivity|].
  apply (proj1 (proj2 expansion_is_record_local) ∅ ("ex" : str) ("Foo" : str));
    reflexivity.
Defined.

(** *** The matching clause *)

(** C2: on [SELECT ?x WHERE { { ?x a dbo:Person } UNION { ?x a dbo:Place } }]
    the WHERE pattern captures the text up to the first closing brace
    only, so the record gets the single triple of the first alternative;
    given the full interior of the outermost braces, the block splitter
    and the extraction do yield the two triples. *)
Theorem union_body_truncated :
  option_map (fun m => group (m_groups m) 1) (search WHERE_PATTERN union_query)
    = Some (" { ?x a dbo:Person " : str)
  /\ (forall g : gmap str str,
        triples_out (parse_sparql g [of_query union_query])
        = Some [triples_lit [["?x"; "a"; "dbo:Person"]]])
  /\ concat (map _extract_triples (_top_level_blocks union_body))
     = triples_lit [["?x"; "a"; "dbo:Person"]; ["?x"; "a"; "dbo:Place"]].
Proof.
  split; [vm_compute; reflexivity|].
  split; [|vm_compute; reflexivity].
  intros g. unfold triples_out.
  rewrite (parse_sparql_result_global _ g init). vm_compute. reflexivity.
Qed.

(** *** Answer indexing *)

Lemma index_answers_raises (l : list pyval) (m : ans_map) :
  existsb (fun a => match a with PDict [] => true | _ => false end) l = true ->
  exists e, index_answers m l = Raise e.
Proof.
  revert m. induction l as [|a l IH]; intros m H; simpl in H; [discriminate|].
  simpl. destruct (index_answer m a) as [m'|e] eqn:E; simpl; [|eauto].
  apply orb_prop in H as [H|H]; [|apply IH, H].
  destruct a as [| | | | |[|]]; try discriminate H.
  simpl in E. discriminate E.
Qed.

Lemma index_answer_ok (a : pyval) (m : ans_map) :
  entry_ok a = true -> exists m', index_answer m a = Ok m'.
Proof.
  destruct a as [|b|z|s|l|d]; simpl; try discriminate; [eauto|].
  destruct d as [|[k [| | | | |d']] rest]; try discriminate.
  unfold index_answer, getitem, first_of, hashable, bind.
  simpl assoc at 2. rewrite str_eqb_refl.
  destruct (assoc _ d') as [x|]; [eauto|discriminate].
Qed.

Lemma index_answers_ok (l : list pyval) (m : ans_map) :
  forallb entry_ok l = true -> exists m', index_answers m l = Ok m'.
Proof.
  revert m. induction l as [|a l IH]; intros m H; simpl in *; [eauto|].
  apply andb_prop in H as [Ha Hl].
  destruct (index_answer_ok a m Ha) as [m' ->]. simpl. apply IH, Hl.
Qed.

Lemma parse_one_raises (g : gmap str str) (s : sample) :
  has_empty_mapping s = true -> exists e, snd (parse_one g s) = Raise e.
Proof.
  intros H. unfold parse_one.
  destruct (index_answers_raises _ [] H) as [e ->]. simpl. eauto.
Qed.

Lemma parse_one_ok (g : gmap str str) (s : sample) :
  answers_ok s = true -> exists s', snd (parse_one g s) = Ok s'.
Proof.
  intros H. unfold parse_one.
  destruct (index_answers_ok _ [] H) as [m ->].
  destruct (search _ _); simpl; eauto.
Qed.

(** C10: [parse_sparql] raises, and returns nothing, on every batch one
    of whose records has an empty mapping among its answers; it returns
    on every batch in which each answer entry is a boolean or a
    non-empty mapping whose first value is a mapping with the key
    [value]. *)
Theorem answer_indexing_partial :
  (forall (g : gmap str str) (samples : list sample),
      existsb has_empty_mapping samples = true ->
      exists e, snd (parse_sparql g samples) = Raise e)
  /\ (forall (g : gmap str str) (samples : list sample),
        forallb answers_ok samples = true ->
        exists out, snd (parse_sparql g samples) = Ok out
                    /\ length out = length samples).
Proof.
  split.
  - intros g samples. revert g.
    induction samples as [|s rest IH]; intros g H; simpl in H; [discriminate|].
    simpl. destruct (parse_one g s) as [g1 [s'|e]] eqn:E; simpl; [|eauto].
    apply orb_prop in H as [H|H].
    + destruct (parse_one_raises g s H) as [e He]. rewrite E in He. discriminate.
    + destruct (IH g1 H) as [e He].
      destruct (parse_sparql g1 rest) as [g2 [r|e']]; simpl in *; [discriminate|eauto].
  - intros g samples. revert g.
    induction samples as [|s rest IH]; intros g H; simpl in *; [eauto|].
    apply andb_prop in H as [Hs Hr].
    destruct (parse_one_ok g s Hs) as [s' Hs'].
    destruct (parse_one g s) as [g1 r1]. simpl in Hs'. subst r1.
    destruct (IH g1 Hr) as [out [Ho Hl]].
    destruct (parse_sparql g1 rest) as [g2 r2]. simpl in Ho. subst r2.
    simpl. eexists. split; [reflexivity|]. simpl. congruence.
Qed.

Lemma answer_indexing_partial_witness :
  (existsb has_empty_mapping
     [record_A; Sample None None (Some [PBool true; PDict []]) None None] = true
   /\ exists e,
        snd (parse_sparql init
               [record_A; Sample None None (Some [PBool true; PDict []]) None None])
        = Raise e)
  /\ (forallb answers_ok
        [record_A;
         Sample None None
           (Some [PDict [("x" : str, PDict [("type" : str, PStr "uri");
                                            ("value" : str, PStr "http://ex.org/a")])];
                  PBool false]) None None] = true
      /\ exists out,
           snd (parse_sparql init
                  [record_A;
                   Sample None None
                     (Some [PDict [("x" : str, PDict [("type" : str, PStr "uri");
                                                      ("value" : str, PStr "http://ex.org/a")])];
                            PBool false]) None None])
           = Ok out /\ length out = 2).
Proof.
  split.
  - split; [reflexivity|].
    apply (proj1 answer_indexing_partial). reflexivity.
  - split; [reflexivity|].
    apply (proj2 answer_indexing_partial init
             [record_A;
              Sample None None
                (Some [PDict [("x" : str, PDict [("type" : str, PStr "uri");
                                                 ("value" : str, PStr "http://ex.org/a")])];
                       PBool false]) None None]).
    reflexivity.
Defined.

(** *** Namespaces *)

(** The table in the order [_replace_uri] tries it: longest first, and
    equally long namespaces in the order of [PREFIX_MAP]. *)
Lemma prefix_order_value :
  map snd _PREFIX_ORDER
  = strs [ "rdf"; "geo"; "rdfs"; "skos"; "xsd"; "gold"; "dc"; "yago"; "owl";
           "georss"; "dbo"; "dbp"; "res"; "foaf"; "dcterms"; "dbpedia" ]
  /\ map (fun e => length (fst e)) _PREFIX_ORDER
     = [43; 40; 37; 36; 33; 33; 32; 30; 30; 29; 28; 28; 28; 26; 25; 19].
Proof. split; reflexivity. Qed.

Lemma replace_with_find order uri :
  replace_with order uri
  = option_map (fun e => snd e ++ ":" ++ lstrip_colon (drop (length (fst e)) uri))
               (find (fun e => startswith uri (fst e)) order).
Proof.
  induction order as [|[ns p] order IH]; simpl; [reflexivity|].
  destruct (startswith uri ns); [reflexivity|exact IH].
Qed.

Lemma startswith_split s p : startswith s p = true -> s = p ++ drop (length p) s.
Proof.
  revert s. induction p as [|a p IH]; intros s H; simpl in *; [reflexivity|].
  destruct s as [|b s]; [discriminate|].
  apply andb_prop in H as [Hab H]. apply Ascii.eqb_eq in Hab. subst b.
  simpl. f_equal. apply IH, H.
Qed.

Lemma lstrip_colon_repeat n rest :
  startswith rest ":" = false -> lstrip_colon (repeat ":"%char n ++ rest) = rest.
Proof.
  intros H. unfold lstrip_colon. induction n as [|n IH]; simpl; [|exact IH].
  destruct rest as [|c rest]; [reflexivity|].
  cbn [startswith list_ascii_of_string] in H. cbn [lstrip_with].
  rewrite andb_true_r in H. rewrite H. reflexivity.
Qed.

Lemma longest_first uri ns1 p1 ns2 p2 :
  In (ns1, p1) PREFIX_MAP -> In (ns2, p2) PREFIX_MAP ->
  proper_prefix ns1 ns2 = true -> startswith uri ns2 = true ->
  first_namespace uri = Some (ns2, p2) /\ p2 <> p1.
Proof.
  intros H1 H2 Hp Hs. apply startswith_split in Hs.
  unfold PREFIX_MAP in H1, H2. cbn [In] in H1, H2.
  repeat match type of H1 with _ \/ _ => destruct H1 as [H1|H1] end;
    try contradiction; injection H1 as <- <-;
    repeat match type of H2 with _ \/ _ => destruct H2 as [H2|H2] end;
    try contradiction; injection H2 as <- <-;
    try (vm_compute in Hp; discriminate Hp);
    (split; [rewrite Hs; vm_compute; reflexivity|vm_compute; discriminate]).
Qed.

(** C6 as stated fails: the remainder [::x] of the identifier
    [<http://dbpedia.org/resource/::x>] loses both of its leading colons,
    so the token is [res:x] and not [res::x]. *)
Lemma two_colons_both_stripped :
  uri_collapse_after_select "SELECT <http://dbpedia.org/resource/::x>"
    = ("SELECT res:x" : str)
  /\ uri_collapse_after_select "SELECT <http://dbpedia.org/resource/::x>"
     <> ("SELECT res::x" : str).
Proof. split; vm_compute; [reflexivity|discriminate]. Qed.

(** C6 as amended: when a matched identifier lies under the namespace
    [ns] (the first of the longest-first table it starts with) and what
    follows the namespace is any number [n] of colons and then a text
    [rest] that does not start with a colon, the emitted token is
    [prefix:rest]: every leading colon is stripped, not just one. *)
Theorem replace_uri_strips_all_colons :
  forall (m : match_obj) (ns prefix rest : str) (n : nat),
    first_namespace (strip (group (m_groups m) 1)) = Some (ns, prefix) ->
    strip (group (m_groups m) 1) = ns ++ repeat ":"%char n ++ rest ->
    startswith rest ":" = false ->
    _replace_uri m = prefix ++ ":" ++ rest.
Proof.
  intros m ns prefix rest n Hf Hu Hr. unfold _replace_uri.
  rewrite replace_with_find. unfold first_namespace in Hf. rewrite Hf.
  cbn [option_map fst snd]. rewrite Hu, drop_app_length.
  rewrite lstrip_colon_repeat by exact Hr. reflexivity.
Qed.

Lemma replace_uri_strips_all_colons_witness :
  _replace_uri (MatchObj 7 "<http://dbpedia.org/resource/:::Paris>"
                  [(1, "http://dbpedia.org/resource/:::Paris" : str)]
                  (Some ">"%char) [])
  = ("res:Paris" : str).
Proof.
  apply (replace_uri_strips_all_colons
           (MatchObj 7 "<http://dbpedia.org/resource/:::Paris>"
              [(1, "http://dbpedia.org/resource/:::Paris" : str)]
              (Some ">"%char) [])
           "http://dbpedia.org/resource/" "res" "Paris" 3);
    vm_compute; reflexivity.
Defined.

(** *** Longest namespace first *)

Lemma strip_uri_chars uri : forallb uri_char uri = true -> strip uri = uri.
Proof.
  intros H. apply uri_chars_nonspace in H.
  apply strip_id; [|apply ends_ok_nonspace, H].
  destruct uri as [|c uri]; [reflexivity|]. simpl in *.
  apply andb_prop in H as [H _]. exact H.
Qed.

Lemma collapse_body_bracketed a uri out b :
  no_lt a = true -> forallb uri_char uri = true -> uri <> [] ->
  replace_with _PREFIX_ORDER uri = Some out ->
  collapse_body (a ++ "<" ++ uri ++ ">" ++ b) = a ++ out ++ collapse_body b.
Proof.
  intros Ha Hu Hn Hr. rewrite collapse_body_frame by exact Ha. f_equal.
  assert (E : ("<" : str) ++ uri ++ ">" ++ b = bracketed [] uri [] ++ b).
  { unfold bracketed. cbn [app list_ascii_of_string].
    rewrite <- app_assoc. reflexivity. }
  rewrite E, collapse_body_step.
  rewrite iri_at_intro by (assumption || reflexivity).
  unfold collapse_iri. rewrite (strip_uri_chars _ Hu), Hr. reflexivity.
Qed.

Lemma collapse_select_bracketed uri out :
  forallb uri_char uri = true -> uri <> [] ->
  replace_with _PREFIX_ORDER uri = Some out ->
  uri_collapse_after_select ("SELECT <" ++ uri ++ ">") = "SELECT " ++ out.
Proof.
  intros Hu Hn Hr.
  set (T := ("SELECT <" : str) ++ uri ++ ">").
  assert (Hsel : search SELECT_RX T
                 = Some (select_match 0 ("SELECT" : str, "T"%char, " <" ++ uri ++ ">"))).
  { apply search_here. rewrite match_at_SELECT. reflexivity. }
  unfold uri_collapse_after_select. rewrite Hsel.
  cbn [m_start select_match]. rewrite drop_0.
  rewrite strip_id.
  - change T with (("SELECT " : str) ++ "<" ++ uri ++ ">" ++ []).
    rewrite (collapse_body_bracketed _ _ out) by (assumption || reflexivity).
    rewrite collapse_body_nil, app_nil_r. reflexivity.
  - reflexivity.
  - unfold T. rewrite app_assoc. apply ends_ok_snoc.
Qed.

(** C7: for every resource identifier that lies under two namespaces of
    the static table, one a proper prefix of the other, the longer
    namespace is the first of the longest-first table that it starts
    with, [_replace_uri] emits the prefix of the longer namespace, and so
    does [uri_collapse_after_select] on the bracketed identifier; that
    prefix is not the one of the shorter namespace. *)
Theorem longest_namespace_wins :
  forall (uri ns1 p1 ns2 p2 : str),
    In (ns1, p1) PREFIX_MAP -> In (ns2, p2) PREFIX_MAP ->
    proper_prefix ns1 ns2 = true ->
    startswith uri ns2 = true -> forallb uri_char uri = true ->
    first_namespace uri = Some (ns2, p2)
    /\ p2 <> p1
    /\ (forall m : match_obj,
          strip (group (m_groups m) 1) = uri ->
          _replace_uri m = p2 ++ ":" ++ lstrip_colon (drop (length ns2) uri))
    /\ uri_collapse_after_select ("SELECT <" ++ uri ++ ">")
       = "SELECT " ++ p2 ++ ":" ++ lstrip_colon (drop (length ns2) uri).
Proof.
  intros uri ns1 p1 ns2 p2 H1 H2 Hp Hs Hu.
  destruct (longest_first uri ns1 p1 ns2 p2 H1 H2 Hp Hs) as [Hf Hne].
  assert (Hr : replace_with _PREFIX_ORDER uri
               = Some (p2 ++ ":" ++ lstrip_colon (drop (length ns2) uri))).
  { rewrite replace_with_find. unfold first_namespace in Hf. rewrite Hf. reflexivity. }
  split; [exact Hf|]. split; [exact Hne|]. split.
  - intros m Hm. unfold _replace_uri. rewrite Hm, Hr. reflexivity.
  - apply collapse_select_bracketed; [exact Hu| |exact Hr].
    intros ->. unfold proper_prefix in Hp. apply andb_prop in Hp as [_ Hl].
    apply Nat.ltb_lt in Hl. destruct ns2; [simpl in Hl; lia|discriminate Hs].
Qed.

Lemma longest_namespace_wins_witness :
  uri_collapse_after_select "SELECT <http://dbpedia.org/resource/Paris>"
  = ("SELECT res:Paris" : str).
Proof.
  apply (proj2 (proj2 (proj2
           (longest_namespace_wins "http://dbpedia.org/resource/Paris"
              "http://dbpedia.org/" "dbpedia" "http://dbpedia.org/resource/" "res"
              ltac:(vm_compute; tauto) ltac:(vm_compute; tauto)
              ltac:(vm_compute; reflexivity) ltac:(vm_compute; reflexivity)
              ltac:(vm_compute; reflexivity))))).
Defined.

(** *** What the collapser does with the text around SELECT *)

Lemma collapse_at_select (T : str) (m : match_obj) :
  search SELECT_RX T = Some m ->
  uri_collapse_after_select T = collapse_body (strip (drop (m_start m) T))
  /\ uri_collapse_after_select (drop (m_start m) T)
     = collapse_body (strip (drop (m_start m) T)).
Proof.
  intros Hs.
  destruct (search_SELECT_inv _ _ Hs) as (x & Hx & _). split.
  - unfold uri_collapse_after_select. rewrite Hs. reflexivity.
  - unfold uri_collapse_after_select.
    rewrite (search_here SELECT_RX _ (select_match 0 x))
      by (rewrite match_at_SELECT, Hx; reflexivity).
    cbn [m_start select_match]. rewrite drop_0. reflexivity.
Qed.

(** C3 as stated fails: the PREFIX block before SELECT is not part of
    the output. *)
Lemma preamble_dropped :
  uri_collapse_after_select
    "PREFIX dbo: <http://dbpedia.org/ontology/> SELECT ?x WHERE { ?x a <http://dbpedia.org/ontology/Person> }"
  = ("SELECT ?x WHERE { ?x a dbo:Person }" : str)
  /\ ~ exists a b : str,
         uri_collapse_after_select
           "PREFIX dbo: <http://dbpedia.org/ontology/> SELECT ?x WHERE { ?x a <http://dbpedia.org/ontology/Person> }"
         = a ++ "PREFIX dbo: <http://dbpedia.org/ontology/> " ++ b.
Proof.
  assert (E : uri_collapse_after_select
                "PREFIX dbo: <http://dbpedia.org/ontology/> SELECT ?x WHERE { ?x a <http://dbpedia.org/ontology/Person> }"
              = ("SELECT ?x WHERE { ?x a dbo:Person }" : str))
    by (vm_compute; reflexivity).
  split; [exact E|].
  intros (a & b & H). rewrite E in H. apply (f_equal (@length ascii)) in H.
  rewrite !length_app in H. simpl in H. lia.
Qed.

(** C3 as amended: for an input with a SELECT token, the output is the
    substitution pass over the stripped text from the first SELECT on;
    the text before that SELECT is discarded (the output is the one of
    the input without it).  The pass copies text without an opening
    bracket unchanged, and at every position it either replaces or keeps
    a bracketed identifier that starts there or copies the character. *)
Theorem collapse_changes_only_brackets_after_select :
  (forall (T : str) (m : match_obj),
      search SELECT_RX T = Some m ->
      uri_collapse_after_select T
        = sub IRI_RX _replace_uri (strip (drop (m_start m) T))
      /\ uri_collapse_after_select T
         = uri_collapse_after_select (drop (m_start m) T))
  /\ (forall a t : str,
        no_lt a = true ->
        sub IRI_RX _replace_uri (a ++ t) = a ++ sub IRI_RX _replace_uri t)
  /\ (forall s : str,
        sub IRI_RX _replace_uri s
        = match match_at IRI_RX 0 None s with
          | Some m => _replace_uri m ++ sub IRI_RX _replace_uri (m_rest m)
          | None =>
              match s with
              | [] => []
              | c :: t => c :: sub IRI_RX _replace_uri t
              end
          end).
Proof.
  split.
  - intros T m Hs.
    destruct (collapse_at_select T m Hs) as [H1 H2].
    split; [exact H1|congruence].
  - split; [exact collapse_body_frame|].
    intros s. rewrite match_at_IRI.
    change (sub IRI_RX _replace_uri s) with (collapse_body s).
    rewrite collapse_body_step.
    destruct (iri_at s) as [[[txt u] rest]|]; reflexivity.
Qed.

Lemma collapse_changes_only_brackets_after_select_witness :
  (exists m : match_obj,
      search SELECT_RX
        "PREFIX dbo: <http://dbpedia.org/ontology/> SELECT ?x WHERE { ?x a <http://dbpedia.org/ontology/Person> }  "
      = Some m
      /\ m_start m = 43
      /\ uri_collapse_after_select
           "PREFIX dbo: <http://dbpedia.org/ontology/> SELECT ?x WHERE { ?x a <http://dbpedia.org/ontology/Person> }  "
         = uri_collapse_after_select
             (drop (m_start m)
                ("PREFIX dbo: <http://dbpedia.org/ontology/> SELECT ?x WHERE { ?x a <http://dbpedia.org/ontology/Person> }  " : str)))
  /\ sub IRI_RX _replace_uri ("SELECT ?x WHERE { ?x a " ++ "<http://dbpedia.org/ontology/Person> }")
     = "SELECT ?x WHERE { ?x a " ++ sub IRI_RX _replace_uri "<http://dbpedia.org/ontology/Person> }".
Proof.
  split.
  - eexists. split; [vm_compute; reflexivity|]. split; [reflexivity|].
    apply (proj1 collapse_changes_only_brackets_after_select).
    vm_compute. reflexivity.
  - apply (proj1 (proj2 collapse_changes_only_brackets_after_select)).
    vm_compute. reflexivity.
Defined.

(** *** Idempotence *)

Lemma isword_plain c : isword c = true -> isspace c = false /\ c <> "<"%char.
Proof.
  destruct c as [[] [] [] [] [] [] [] []]; vm_compute; intros H;
    (discriminate H || (split; [reflexivity|discriminate])).
Qed.

Lemma ci_plain c x : ci c x = true -> isword x = true ->
  isspace c = false /\ negb (Ascii.eqb c "<") = true.
Proof.
  intros H Hx. destruct (isword_plain c (ci_word _ _ H Hx)) as [Hs Hn].
  split; [exact Hs|]. destruct (Ascii.eqb c "<") eqn:E; [|reflexivity].
  apply Ascii.eqb_eq in E. congruence.
Qed.

(** The keyword in front of a text, in the shape [select_at] reads it. *)
Lemma select_at_inv pv s x :
  select_at pv s = Some x ->
  exists sel c6 rest,
    x = (sel, c6, rest) /\ s = sel ++ rest /\ length sel = 6
    /\ no_lt sel = true /\ stopped isspace sel = true /\ ends_ok sel = true
    /\ sel <> []
    /\ word_opt (head rest) = false
    /\ (forall rest', word_opt (head rest') = false ->
                      select_at None (sel ++ rest') = Some (sel, c6, rest')).
Proof.
  unfold select_at.
  destruct s as [|c1 [|c2 [|c3 [|c4 [|c5 [|c6 rest]]]]]]; try discriminate.
  destruct (negb (word_opt pv)) eqn:Hpv; [|discriminate].
  destruct (ci c1 "S") eqn:H1; [|discriminate].
  destruct (ci c2 "E") eqn:H2; [|discriminate].
  destruct (ci c3 "L") eqn:H3; [|discriminate].
  destruct (ci c4 "E") eqn:H4; [|discriminate].
  destruct (ci c5 "C") eqn:H5; [|discriminate].
  destruct (ci c6 "T") eqn:H6; [|discriminate].
  destruct (negb (word_opt (head rest))) eqn:Hr; [|discriminate].
  cbn [andb]. intros [= <-].
  exists [c1; c2; c3; c4; c5; c6], c6, rest.
  destruct (ci_plain _ _ H1 eq_refl) as [S1 N1].
  destruct (ci_plain _ _ H2 eq_refl) as [S2 N2].
  destruct (ci_plain _ _ H3 eq_refl) as [S3 N3].
  destruct (ci_plain _ _ H4 eq_refl) as [S4 N4].
  destruct (ci_plain _ _ H5 eq_refl) as [S5 N5].
  destruct (ci_plain _ _ H6 eq_refl) as [S6 N6].
  repeat split; try discriminate.
  - cbn [no_lt forallb]. rewrite N1, N2, N3, N4, N5, N6. reflexivity.
  - cbn [stopped]. rewrite S1. reflexivity.
  - unfold ends_ok. cbn [rev app stopped]. rewrite S6. reflexivity.
  - destruct (word_opt (head rest)); [discriminate|reflexivity].
  - intros rest' Hr'. cbn [app select_at word_opt negb andb].
    rewrite H1, H2, H3, H4, H5, H6, Hr'. reflexivity.
Qed.

Lemma head_rstrip_word p (b : str) :
  word_opt (head b) = false -> word_opt (head (rstrip_with p b)) = false.
Proof.
  intros H. destruct (rstrip_with_prefix p b) as [w Hw].
  destruct (rstrip_with p b) as [|c r]; [reflexivity|].
  rewrite Hw in H. exact H.
Qed.

Lemma collapse_body_head (s : str) :
  head s <> Some "<"%char -> head (collapse_body s) = head s.
Proof.
  intros H. destruct s as [|c t]; [reflexivity|].
  rewrite collapse_body_step, iri_at_other; [reflexivity|].
  intros ->. apply H. reflexivity.
Qed.

(** The stripped text from SELECT on: the keyword, then the rest. *)
Lemma strip_select s x :
  select_at None s = Some x ->
  exists sel c6 rest,
    strip s = sel ++ rest /\ length sel = 6
    /\ no_lt sel = true /\ stopped isspace sel = true /\ sel <> []
    /\ word_opt (head rest) = false
    /\ (forall rest', word_opt (head rest') = false ->
                      select_at None (sel ++ rest') = Some (sel, c6, rest')).
Proof.
  intros H.
  destruct (select_at_inv _ _ _ H) as
    (sel & c6 & rest & -> & -> & Hl & Hn & Hs & He & Hne & Hw & Hk).
  exists sel, c6, (rstrip_with isspace rest).
  split.
  { unfold strip. rewrite lstrip_with_id.
    - apply rstrip_with_app_keep; assumption.
    - destruct sel; [congruence|exact Hs]. }
  repeat split; try assumption. apply head_rstrip_word, Hw.
Qed.

Lemma stopped_head_app p (a b : str) : a <> [] -> stopped p a = true -> stopped p (a ++ b) = true.
Proof. destruct a; [congruence|auto]. Qed.

Lemma collapse_idempotent_at (T : str) (m : match_obj) :
  search SELECT_RX T = Some m ->
  head (drop 6 (strip (drop (m_start m) T))) <> Some "<"%char ->
  well_bracketed (strip (drop (m_start m) T)) ->
  uri_collapse_after_select (uri_collapse_after_select T)
  = uri_collapse_after_select T.
Proof.
  intros Hs Hh Hw.
  destruct (search_SELECT_inv _ _ Hs) as (x & Hx & _).
  unfold uri_collapse_after_select at 2 3. rewrite Hs.
  set (body := strip (drop (m_start m) T)) in *.
  fold (collapse_body body).
  destruct (strip_select _ _ Hx) as (sel & c6 & rest & Hb & Hl & Hn & Hst & Hne & Hwd & Hk).
  fold body in Hb.
  assert (Hrest : drop 6 body = rest).
  { rewrite Hb, <- Hl. apply drop_app_length. }
  rewrite Hrest in Hh.
  assert (HO : collapse_body body = sel ++ collapse_body rest).
  { rewrite Hb. apply collapse_body_frame, Hn. }
  assert (Hsel : select_at None (collapse_body body) = Some (sel, c6, collapse_body rest)).
  { rewrite HO. apply Hk. rewrite collapse_body_head by exact Hh. exact Hwd. }
  unfold uri_collapse_after_select.
  rewrite (search_here SELECT_RX _ (select_match 0 (sel, c6, collapse_body rest)))
    by (rewrite match_at_SELECT, Hsel; reflexivity).
  cbn [m_start select_match]. rewrite drop_0.
  rewrite strip_id.
  - apply collapse_body_idem, Hw.
  - rewrite HO. apply stopped_head_app; assumption.
  - apply collapse_body_ends_ok. apply strip_ends_ok.
Qed.

(** C5 as stated fails twice over: a replacement can leave a bracketed
    identifier behind when the matched identifier contains another
    opening bracket, and it can weld a prefix onto the SELECT keyword so
    that a second pass restarts from a later SELECT. *)
Lemma collapse_not_idempotent :
  uri_collapse_after_select
    "SELECT <http://dbpedia.org/resource/<http://dbpedia.org/resource/x>>"
  = ("SELECT res:<http://dbpedia.org/resource/x>" : str)
  /\ uri_collapse_after_select
       (uri_collapse_after_select
          "SELECT <http://dbpedia.org/resource/<http://dbpedia.org/resource/x>>")
     = ("SELECT res:res:x" : str)
  /\ uri_collapse_after_select
       (uri_collapse_after_select
          "SELECT <http://dbpedia.org/resource/<http://dbpedia.org/resource/x>>")
     <> uri_collapse_after_select
          "SELECT <http://dbpedia.org/resource/<http://dbpedia.org/resource/x>>"
  /\ uri_collapse_after_select "SELECT<http://dbpedia.org/x> SELECT ?y"
     = ("SELECTdbpedia:x SELECT ?y" : str)
  /\ uri_collapse_after_select
       (uri_collapse_after_select "SELECT<http://dbpedia.org/x> SELECT ?y")
     = ("SELECT ?y" : str).
Proof.
  repeat split; vm_compute; (reflexivity || discriminate).
Qed.

(** C5 as amended: collapsing is idempotent on a text without a SELECT
    token, and on a text in which the first SELECT is not directly
    followed by an opening bracket and, from there on (white space at
    the end apart), every opening bracket starts a bracketed identifier
    that contains no further opening bracket. *)
Theorem collapse_idempotent_when_well_bracketed :
  (forall T : str,
      search SELECT_RX T = None ->
      uri_collapse_after_select (uri_collapse_after_select T)
      = uri_collapse_after_select T)
  /\ (forall (T : str) (m : match_obj),
        search SELECT_RX T = Some m ->
        head (drop 6 (strip (drop (m_start m) T))) <> Some "<"%char ->
        well_bracketed (strip (drop (m_start m) T)) ->
        uri_collapse_after_select (uri_collapse_after_select T)
        = uri_collapse_after_select T).
Proof.
  split; [|exact collapse_idempotent_at].
  intros T H. unfold uri_collapse_after_select. rewrite H, H. reflexivity.
Qed.

Lemma collapse_idempotent_when_well_bracketed_witness :
  uri_collapse_after_select
    (uri_collapse_after_select
       "PREFIX x: <http://e/> SELECT ?x WHERE { ?x a <http://dbpedia.org/ontology/Person> . ?x <http://unknown/p> < http://dbpedia.org/resource/Paris > }  ")
  = uri_collapse_after_select
      "PREFIX x: <http://e/> SELECT ?x WHERE { ?x a <http://dbpedia.org/ontology/Person> . ?x <http://unknown/p> < http://dbpedia.org/resource/Paris > }  ".
Proof.
  eapply (proj2 collapse_idempotent_when_well_bracketed).
  - vm_compute. reflexivity.
  - vm_compute. discriminate.
  - vm_compute.
    repeat first
      [ apply wb_nil
      | apply wb_char; [discriminate|]
      | eapply wb_iri; [vm_compute; reflexivity|vm_compute; reflexivity|];
        cbn [m_rest] ].
Defined.

(* ================================================================== *)
(** ** Further properties of the code *)
(* ================================================================== *)

Import Shapes.

(** *** The text a match consumes *)

(** The continuation is called on a suffix of the input. *)
Lemma run_split (r : regex) :
  forall pv s g k o,
    run r pv s g k = Some o ->
    exists pv' u s' g', s = u ++ s' /\ k pv' s' g' = Some o.
Proof.
  induction r as [|p|a IHa b IHb|a IHa b IHb|greedy a IHa|i a IHa|];
    intros pv s g k o H; cbn [run] in H.
  - exists pv, [], s, g. auto.
  - destruct s as [|c t]; [discriminate|]. destruct (p c); [|discriminate].
    exists (Some c), [c], t, g. auto.
  - apply IHa in H as (pv1 & u1 & s1 & g1 & -> & H).
    apply IHb in H as (pv2 & u2 & s2 & g2 & -> & H).
    exists pv2, (u1 ++ u2), s2, g2. rewrite <- app_assoc. auto.
  - unfold or_else in H. destruct (run a pv s g k) eqn:E.
    + injection H as ->. eapply IHa, E.
    + eapply IHb, H.
  - assert (Hloop : forall fuel pv s g o,
               star_loop (run a) greedy k fuel pv s g = Some o ->
               exists pv' u s' g', s = u ++ s' /\ k pv' s' g' = Some o).
    { clear H. induction fuel as [|fuel IHf]; intros pv0 s0 g0 o0 H;
        rewrite star_loop_unfold in H; cbn zeta in H.
      - destruct greedy; unfold or_else in H.
        + exists pv0, [], s0, g0. auto.
        + destruct (k pv0 s0 g0) eqn:E; [|discriminate].
          exists pv0, [], s0, g0. split; [reflexivity|congruence].
      - assert (Hmore : forall o1,
                   run a pv0 s0 g0 (fun pv' s' g' =>
                     if (length s' <? length s0)%nat
                     then star_loop (run a) greedy k fuel pv' s' g' else None)
                   = Some o1 ->
                   exists pv' u s' g', s0 = u ++ s' /\ k pv' s' g' = Some o1).
        { intros o1 H1. apply IHa in H1 as (pv1 & u1 & s1 & g1 & -> & H1).
          destruct (length s1 <? length (u1 ++ s1))%nat; [|discriminate].
          apply IHf in H1 as (pv2 & u2 & s2 & g2 & -> & H1).
          exists pv2, (u1 ++ u2), s2, g2. rewrite <- app_assoc. auto. }
        destruct greedy; unfold or_else in H.
        + destruct (run a pv0 s0 g0 _) eqn:E.
          * injection H as ->. apply Hmore. reflexivity.
          * exists pv0, [], s0, g0. auto.
        + destruct (k pv0 s0 g0) eqn:E.
          * exists pv0, [], s0, g0. split; [reflexivity|congruence].
          * apply Hmore, H. }
    apply Hloop in H. exact H.
  - apply IHa in H as (pv' & u & s' & g' & -> & H).
    exists pv', u, s', (set_group i (consumed (u ++ s') s') g'). auto.
  - destruct (xorb _ _); [|discriminate].
    exists pv, [], s, g. auto.
Qed.

(** A match object splits the text: matched text, then the rest. *)
Lemma match_at_split (r : regex) i pv s m :
  match_at r i pv s = Some m -> s = m_text m ++ m_rest m.
Proof.
  unfold match_at. destruct (run _ _ _ _ _) as [[[pv' s'] g']|] eqn:E; [|discriminate].
  intros [= <-]. cbn [m_rest m_text].
  apply run_split in E as (pv1 & u & s1 & g1 & -> & [= -> -> ->]).
  rewrite consumed_app. reflexivity.
Qed.

(** The scan cuts the text: its segments, put together, are the text. *)
Lemma segments_concat (r : regex) (fuel : nat) :
  forall i pv s, concat (map seg_text (segments fuel r i pv s)) = s.
Proof.
  induction fuel as [|fuel IH]; intros i pv s; cbn [segments].
  - induction s as [|c s IHs]; [reflexivity|]. cbn. f_equal. exact IHs.
  - assert (Hskip : concat (map seg_text
                      match s with
                      | [] => []
                      | c :: t => Lit c :: segments fuel r (S i) (Some c) t
                      end) = s).
    { destruct s as [|c t]; [reflexivity|]. cbn. f_equal. apply IH. }
    destruct (match_at r i pv s) as [m|] eqn:E; [|exact Hskip].
    pose proof (match_at_split _ _ _ _ _ E) as Hs.
    destruct (length (m_rest m) <? length s)%nat eqn:El.
    + cbn. rewrite IH. symmetry. exact Hs.
    + apply Nat.ltb_ge in El. rewrite Hs in El. rewrite length_app in El.
      assert (m_text m = []) as Ht by (destruct (m_text m); [reflexivity|simpl in El; lia]).
      cbn [map concat seg_text]. rewrite Ht. exact Hskip.
Qed.

(** Substituting each match by itself gives the text back. *)
Lemma sub_identity (r : regex) (s : str) : sub r m_text s = s.
Proof.
  unfold sub, scan.
  transitivity (concat (map seg_text (segments (S (length s)) r 0 None s)));
    [reflexivity|apply segments_concat].
Qed.

(** Deleting the matches leaves a subsequence of the text. *)
Lemma sub_delete_sublist (r : regex) (s : str) : sublist (sub r (fun _ => []) s) s.
Proof.
  unfold sub, scan.
  pose proof (segments_concat r (S (length s)) 0 None s) as E.
  revert E. generalize (segments (S (length s)) r 0 None s). intros l <-.
  induction l as [|sg l IH]; [constructor|].
  cbn [map concat]. destruct sg as [c|m]; cbn [render seg_text].
  - cbn [app]. apply sublist_skip, IH.
  - cbn [app]. apply sublist_inserts_l, IH.
Qed.

(** The matches found, put together, are a subsequence of the text. *)
Lemma findall_sublist (r : regex) (s : str) : sublist (concat (findall r s)) s.
Proof.
  unfold findall, finditer, scan.
  pose proof (segments_concat r (S (length s)) 0 None s) as E.
  revert E. generalize (segments (S (length s)) r 0 None s). intros l <-.
  induction l as [|sg l IH]; [constructor|].
  cbn [map concat omap]. destruct sg as [c|m]; cbn [seg_text].
  - cbn [app]. apply sublist_cons, IH.
  - cbn [map concat]. apply sublist_app; [reflexivity|exact IH].
Qed.

(** *** The block splitter *)

Lemma split_step_with_blocks bs st c :
  split_step (with_blocks bs st) c = with_blocks bs (split_step st c).
Proof.
  destruct st as [b u d]. unfold split_step, with_blocks. cbn [blocks buf depth].
  destruct (Ascii.eqb c "{").
  - destruct ((d =? 0)%Z && negb (is_nil u)); cbn [blocks buf depth];
      rewrite <- ?app_assoc; reflexivity.
  - destruct (Ascii.eqb c "}"); [|reflexivity].
    destruct (0 <? d - 1)%Z; cbn [blocks buf depth]; rewrite <- ?app_assoc; reflexivity.
Qed.

Lemma split_fold_with_blocks bs s st :
  fold_left split_step s (with_blocks bs st)
  = with_blocks bs (fold_left split_step s st).
Proof.
  revert st. induction s as [|c s IH]; intros st; [reflexivity|].
  cbn [fold_left]. rewrite split_step_with_blocks. apply IH.
Qed.

(** Text without braces goes to the buffer. *)
Lemma split_fold_plain a st :
  no_brace a = true ->
  fold_left split_step a st = Splitter (blocks st) (buf st ++ a) (depth st).
Proof.
  revert st. induction a as [|c a IH]; intros st H.
  - cbn. rewrite app_nil_r. destruct st; reflexivity.
  - cbn [no_brace forallb] in H. apply andb_prop in H as [Hc Ha].
    apply andb_prop in Hc as [Ho Hcl].
    cbn [fold_left]. rewrite IH by exact Ha.
    unfold split_step. unfold is_open, is_close in Ho, Hcl.
    destruct (Ascii.eqb c "{"); [discriminate|].
    destruct (Ascii.eqb c "}"); [discriminate|].
    cbn [blocks buf depth]. rewrite <- app_assoc. reflexivity.
Qed.

(** Inside a group the text goes to the buffer, nested braces too. *)
Lemma split_fold_inner inner :
  forall n n' bs u,
    nesting n inner = Some n' ->
    fold_left split_step inner (Splitter bs u (Z.of_nat (S n)))
    = Splitter bs (u ++ inner) (Z.of_nat (S n')).
Proof.
  induction inner as [|c t IH]; intros n n' bs u H.
  - injection H as <-. rewrite app_nil_r. reflexivity.
  - cbn [nesting] in H. cbn [fold_left]. unfold split_step at 2.
    cbn [blocks buf depth]. unfold is_open, is_close in H.
    destruct (Ascii.eqb c "{") eqn:Eo.
    + replace ((Z.of_nat (S n) =? 0)%Z) with false by (symmetry; apply Z.eqb_neq; lia).
      cbn [andb blocks buf depth].
      replace (1 <? Z.of_nat (S n) + 1)%Z with true by (symmetry; apply Z.ltb_lt; lia).
      replace (Z.of_nat (S n) + 1)%Z with (Z.of_nat (S (S n))) by lia.
      rewrite (IH _ _ _ _ H). rewrite <- app_assoc. reflexivity.
    + destruct (Ascii.eqb c "}") eqn:Ec.
      * destruct n as [|m]; [discriminate|].
        replace (0 <? Z.of_nat (S (S m)) - 1)%Z with true by (symmetry; apply Z.ltb_lt; lia).
        replace (Z.of_nat (S (S m)) - 1)%Z with (Z.of_nat (S m)) by lia.
        rewrite (IH _ _ _ _ H). rewrite <- app_assoc. reflexivity.
      * rewrite (IH _ _ _ _ H). rewrite <- app_assoc. reflexivity.
Qed.

Lemma top_level_blocks_from s :
  _top_level_blocks s = blocks_from (fold_left split_step s (Splitter [] [] 0)).
Proof. reflexivity. Qed.

Lemma blocks_from_with_blocks bs st :
  blocks_from (with_blocks bs st) = bs ++ blocks_from st.
Proof.
  unfold blocks_from, with_blocks. cbn [blocks buf].
  destruct (is_nil (strip (buf st))); [reflexivity|]. rewrite app_assoc. reflexivity.
Qed.

Lemma split_fold_from_blocks bs s :
  fold_left split_step s (Splitter bs [] 0)
  = with_blocks bs (fold_left split_step s (Splitter [] [] 0)).
Proof.
  rewrite <- split_fold_with_blocks. unfold with_blocks. cbn [blocks buf depth].
  rewrite app_nil_r. reflexivity.
Qed.

Lemma split_step_open_top bs u :
  split_step (Splitter bs u 0) "{"
  = Splitter (if is_nil u then bs else bs ++ [strip u]) [] 1.
Proof. destruct u; reflexivity. Qed.

Lemma split_step_close_one bs u :
  split_step (Splitter bs u 1) "}" = Splitter (bs ++ [strip u]) [] 0.
Proof. reflexivity. Qed.

(** X1: [_top_level_blocks] on a text that starts with brace-free text,
    then a group in braces whose inside is balanced, then anything: the
    blocks are the stripped text before the group (unless that text is
    empty), the stripped inside of the group with its nested braces
    kept, and then the blocks of the rest of the text. *)
Theorem top_level_blocks_group :
  forall pre inner rest : str,
    no_brace pre = true -> balanced inner = true ->
    _top_level_blocks (pre ++ "{" ++ inner ++ "}" ++ rest)
    = (if is_nil pre then [] else [strip pre])
        ++ strip inner :: _top_level_blocks rest.
Proof.
  intros pre inner rest Hp Hb. unfold balanced in Hb.
  destruct (nesting 0 inner) as [[|n]|] eqn:Hn; try discriminate.
  rewrite !top_level_blocks_from.
  change ("{" : str) with ["{"%char]. change ("}" : str) with ["}"%char].
  rewrite fold_left_app, (split_fold_plain pre _ Hp).
  cbn [blocks buf depth app fold_left].
  rewrite split_step_open_top.
  rewrite fold_left_app.
  rewrite (split_fold_inner inner 0 0 _ _ Hn).
  cbn [app fold_left Z.of_nat Pos.of_succ_nat]. rewrite split_step_close_one.
  rewrite split_fold_from_blocks, blocks_from_with_blocks.
  destruct pre; cbn [is_nil app]; reflexivity.
Qed.

Lemma top_level_blocks_group_witness :
  _top_level_blocks ("?s a ?t . { ?s ?p ?o } UNION " : str)
  = strs ["?s a ?t ."; "?s ?p ?o"; "UNION"].
Proof.
  apply (top_level_blocks_group "?s a ?t . " " ?s ?p ?o " " UNION "); reflexivity.
Defined.

(** X2: [_top_level_blocks] on a text without braces gives the stripped
    text as the only block, and no block when the text is empty or white
    space. *)
Theorem top_level_blocks_plain :
  forall s : str,
    no_brace s = true ->
    _top_level_blocks s = if is_nil (strip s) then [] else [strip s].
Proof.
  intros s H. rewrite top_level_blocks_from, (split_fold_plain s _ H).
  unfold blocks_from. cbn [blocks buf app]. reflexivity.
Qed.

Lemma top_level_blocks_plain_witness :
  no_brace " ?x a dbo:Person . " = true
  /\ _top_level_blocks " ?x a dbo:Person . " = [("?x a dbo:Person ." : str)].
Proof.
  split; [reflexivity|].
  rewrite (top_level_blocks_plain " ?x a dbo:Person . "); reflexivity.
Defined.

(** Stripping twice is stripping once. *)
Lemma strip_stopped s : stopped isspace (strip s) = true.
Proof.
  unfold strip. set (y := lstrip_with isspace s).
  pose proof (lstrip_with_stopped isspace s) as Hy. fold y in Hy.
  destruct (rstrip_with_prefix isspace y) as [w Hw].
  destruct (rstrip_with isspace y) as [|c r] eqn:E; [reflexivity|].
  rewrite Hw in Hy. exact Hy.
Qed.

Lemma strip_strip s : strip (strip s) = strip s.
Proof. apply strip_id; [apply strip_stopped|apply strip_ends_ok]. Qed.

Lemma split_step_blocks_stripped st c :
  Forall (fun b => strip b = b) (blocks st) ->
  Forall (fun b => strip b = b) (blocks (split_step st c)).
Proof.
  intros H. unfold split_step.
  destruct (Ascii.eqb c "{").
  - destruct ((depth st =? 0)%Z && negb (is_nil (buf st))); cbn [blocks]; [|exact H].
    apply Forall_app. split; [exact H|]. repeat constructor. apply strip_strip.
  - destruct (Ascii.eqb c "}"); [|exact H].
    destruct (0 <? depth st - 1)%Z; cbn [blocks]; [exact H|].
    apply Forall_app. split; [exact H|]. repeat constructor. apply strip_strip.
Qed.

(** X3: every block [_top_level_blocks] returns, on any text, has no
    white space at either end. *)
Theorem top_level_blocks_stripped :
  forall (s b : str), In b (_top_level_blocks s) -> strip b = b.
Proof.
  intros s b. rewrite top_level_blocks_from.
  assert (H : forall st, Forall (fun b => strip b = b) (blocks st) ->
                         Forall (fun b => strip b = b) (blocks (fold_left split_step s st))).
  { induction s as [|c s IH]; intros st Hst; [exact Hst|].
    cbn [fold_left]. apply IH, split_step_blocks_stripped, Hst. }
  specialize (H (Splitter [] [] 0) (Forall_nil_2 _)).
  unfold blocks_from.
  set (st := fold_left split_step s (Splitter [] [] 0)) in *.
  rewrite Forall_forall in H. intros Hin.
  destruct (is_nil (strip (buf st))).
  - apply H, list_elem_of_In, Hin.
  - apply in_app_or in Hin as [Hin|[<-|[]]]; [apply H, list_elem_of_In, Hin|].
    apply strip_strip.
Qed.

Lemma top_level_blocks_stripped_witness :
  In ("?x a dbo:Place" : str) (_top_level_blocks union_body)
  /\ strip ("?x a dbo:Place" : str) = ("?x a dbo:Place" : str).
Proof.
  assert (H : In ("?x a dbo:Place" : str) (_top_level_blocks union_body))
    by (vm_compute; tauto).
  split; [exact H|]. exact (top_level_blocks_stripped union_body _ H).
Defined.

(** *** The triple-assembly loop *)

Lemma step_with_out o st t : step (with_out o st) t = with_out o (step st t).
Proof.
  destruct st as [sj pr ou]. unfold step, with_out. cbn [subj pred out].
  destruct (str_eqb t "."); [reflexivity|].
  destruct (str_eqb t ";"); [reflexivity|].
  destruct (str_eqb t ","); [reflexivity|].
  destruct sj; [|reflexivity]. destruct pr; [|reflexivity].
  cbn [subj pred out]. rewrite app_assoc. reflexivity.
Qed.

Lemma fold_step_with_out o ts st :
  fold_left step ts (with_out o st) = with_out o (fold_left step ts st).
Proof.
  revert st. induction ts as [|t ts IH]; intros st; [reflexivity|].
  cbn [fold_left]. rewrite step_with_out. apply IH.
Qed.

(** X4: the triple-assembly loop of [_extract_triples] treats the tokens
    before and after a full stop independently: the triples of a token
    list with a full stop in it are those of the part before it followed
    by those of the part after it. *)
Theorem assemble_statements :
  forall t1 t2 : list str,
    assemble (t1 ++ ("." : str) :: t2) = assemble t1 ++ assemble t2.
Proof.
  intros t1 t2. unfold assemble. rewrite fold_left_app. cbn [fold_left].
  set (st1 := fold_left step t1 (Slots None None [])).
  assert (step st1 "." = with_out (out st1) (Slots None None [])) as ->.
  { unfold with_out. cbn [subj pred out]. rewrite app_nil_r. reflexivity. }
  rewrite fold_step_with_out. reflexivity.
Qed.

Lemma step_keeps_ok tokens st t :
  In t tokens ->
  slot_ok tokens (subj st) -> slot_ok tokens (pred st) ->
  Forall (triple_ok tokens) (out st) ->
  slot_ok tokens (subj (step st t)) /\ slot_ok tokens (pred (step st t))
  /\ Forall (triple_ok tokens) (out (step st t)).
Proof.
  intros Hin Hs Hp Ho. unfold step.
  destruct (str_eqb t ".") eqn:E1; [cbn; auto|].
  destruct (str_eqb t ";") eqn:E2; [cbn; auto|].
  destruct (str_eqb t ",") eqn:E3; [auto|].
  assert (Ht : is_sep t = false) by (unfold is_sep; rewrite E1, E2, E3; reflexivity).
  destruct (subj st) as [sj|]; [|cbn; auto].
  destruct (pred st) as [pr|]; cbn [subj pred out]; [|cbn; auto].
  split; [exact Hs|]. split; [exact Hp|].
  apply Forall_app. split; [exact Ho|]. constructor; [|constructor].
  cbn in Hs, Hp. split; [reflexivity|]. repeat constructor; tauto.
Qed.

Lemma assemble_shape :
  forall (tokens tr : list str),
    In tr (assemble tokens) ->
    length tr = 3 /\ Forall (fun t => is_sep t = false /\ In t tokens) tr.
Proof.
  intros tokens tr. unfold assemble.
  assert (H : forall ts st,
             (forall t, In t ts -> In t tokens) ->
             slot_ok tokens (subj st) -> slot_ok tokens (pred st) ->
             Forall (triple_ok tokens) (out st) ->
             Forall (triple_ok tokens) (out (fold_left step ts st))).
  { induction ts as [|t ts IH]; intros st Hsub Hs Hp Ho; [exact Ho|].
    cbn [fold_left].
    destruct (step_keeps_ok tokens st t (Hsub t (or_introl eq_refl)) Hs Hp Ho)
      as (Hs' & Hp' & Ho').
    apply IH; auto. intros t' Ht'. apply Hsub. right. exact Ht'. }
  specialize (H tokens (Slots None None []) (fun t Ht => Ht) I I (Forall_nil_2 _)).
  rewrite Forall_forall in H. intros Hin. apply (H tr), list_elem_of_In, Hin.
Qed.

Lemma step_within n st t :
  within n st ->
  within (if is_sep t then n else S n) (step st t).
Proof.
  destruct st as [sj pr ou]. unfold within, step, is_sep. cbn [subj pred out].
  intros [Hn Hsp].
  destruct (str_eqb t "."); cbn [orb subj pred out filled].
  { split; [|reflexivity].
    destruct Hn as [Hn|[Ho _]]; [left; exact Hn|right; split; [exact Ho|lia]]. }
  destruct (str_eqb t ";"); cbn [orb subj pred out filled].
  { split; [|intros ->; reflexivity].
    destruct Hn as [Hn|[Ho Hf]]; [left; exact Hn|right; split; [exact Ho|lia]]. }
  destruct (str_eqb t ","); cbn [orb subj pred out filled].
  { split; assumption. }
  destruct sj as [sj|]; [destruct pr as [pr|]|]; cbn [subj pred out filled] in *.
  - split; [|discriminate]. left. rewrite length_app. cbn [length].
    destruct Hn as [Hn|[Ho Hf]]; [lia|]. rewrite Ho. cbn. lia.
  - split; [|discriminate].
    destruct Hn as [Hn|[Ho Hf]]; [left; lia|right; split; [exact Ho|lia]].
  - rewrite (Hsp eq_refl) in *. split; [|discriminate].
    destruct Hn as [Hn|[Ho Hf]]; [left; lia|right; split; [exact Ho|cbn; lia]].
Qed.

Lemma assemble_needs_three :
  forall tokens : list str, length (assemble tokens) <= count_terms tokens - 2.
Proof.
  intros tokens. unfold assemble.
  assert (H : forall ts n st, within n st ->
                within (n + count_terms ts) (fold_left step ts st)).
  { induction ts as [|t ts IH]; intros n st Hw.
    - cbn. rewrite Nat.add_0_r. exact Hw.
    - cbn [fold_left]. apply step_within with (t := t) in Hw.
      apply IH in Hw. unfold count_terms in *. cbn [List.filter].
      destruct (is_sep t); cbn [negb length] in *; [exact Hw|].
      replace (n + S (length (List.filter (fun t0 => negb (is_sep t0)) ts)))
        with (S n + length (List.filter (fun t0 => negb (is_sep t0)) ts)) by lia.
      exact Hw. }
  specialize (H tokens 0 (Slots None None [])).
  destruct H as [[H|[H _]] _].
  - split; [right; split; [reflexivity|cbn; lia]|reflexivity].
  - cbn [Nat.add] in H. lia.
  - rewrite H. cbn. lia.
Qed.

(** *** Tokens *)

Lemma star_chr_total p (k : kont) :
  (forall pv s g, k pv s g <> None) ->
  forall s pv g, star_chr p pv s g k <> None.
Proof.
  intros Hk. induction s as [|c t IH]; intros pv g; cbn [star_chr]; [apply Hk|].
  destruct (p c); [|apply Hk].
  unfold or_else. destruct (star_chr p (Some c) t g k) eqn:E; [discriminate|].
  exfalso. exact (IH _ _ E).
Qed.

Lemma token_at_unskippable i pv c t :
  skippable c = false -> match_at TOKEN_RE i pv (c :: t) <> None.
Proof.
  intros Hc. unfold match_at.
  set (k0 := fun (pv' : option ascii) (s' : str) (g' : groups) => Some (pv', s', g')).
  assert (Hrun : run TOKEN_RE pv (c :: t) [] k0 <> None).
  { unfold TOKEN_RE. cbn [alts run]. unfold or_else.
    destruct (run STRING_RE pv (c :: t) [] k0); [discriminate|].
    destruct (run IRI_RE pv (c :: t) [] k0); [discriminate|].
    unfold skippable in Hc. apply orb_false_elim in Hc as [Hsp Hbr].
    destruct (one_of ";,." c) eqn:Esep.
    - destruct (run PNAME_RE pv (c :: t) [] k0); [discriminate|].
      unfold SEP_RE. cbn [run]. rewrite Esep. discriminate.
    - assert (Hp : pname_char c = true).
      { unfold pname_char. rewrite Hsp. cbn [negb andb].
        revert Hbr Esep. unfold none_of, one_of.
        cbn [list_ascii_of_string existsb]. 
        destruct (Ascii.eqb c ";"), (Ascii.eqb c ","), (Ascii.eqb c "."),
          (Ascii.eqb c "{"), (Ascii.eqb c "}"), (Ascii.eqb c "("), (Ascii.eqb c ")");
          cbn; congruence. }
      unfold PNAME_RE, plus. cbn [run]. rewrite Hp.
      rewrite (star_loop_chr pname_char) by lia.
      destruct (star_chr pname_char (Some c) t [] k0) eqn:E; [discriminate|].
      exfalso. revert E. apply star_chr_total. intros; discriminate. }
  destruct (run TOKEN_RE pv (c :: t) [] k0) as [[[? ?] ?]|]; [discriminate|congruence].
Qed.

Lemma token_pattern_nonempty : nonempty TOKEN_RE = true.
Proof. reflexivity. Qed.

Lemma token_segments_lits fuel :
  forall i pv s, length s < fuel ->
    Forall (fun sg => match sg with Lit c => skippable c = true | Mat _ => True end)
           (segments fuel TOKEN_RE i pv s).
Proof.
  induction fuel as [|fuel IH]; intros i pv s Hl; [lia|].
  cbn [segments].
  destruct (match_at TOKEN_RE i pv s) as [m|] eqn:E.
  - destruct (match_at_rest _ _ _ _ _ E) as [_ Hlt].
    specialize (Hlt token_pattern_nonempty).
    apply Nat.ltb_lt in Hlt as Hlt'. rewrite Hlt'.
    constructor; [exact I|]. apply IH. lia.
  - destruct s as [|c t]; [constructor|].
    constructor.
    + destruct (skippable c) eqn:Ec; [reflexivity|].
      exfalso. exact (token_at_unskippable i pv c t Ec E).
    + apply IH. simpl in Hl. lia.
Qed.

Lemma keep_terms_app a b : keep_terms (a ++ b) = keep_terms a ++ keep_terms b.
Proof. apply List.filter_app. Qed.

(** X5: tokenization with [TOKEN_RE] loses nothing but white space,
    braces and parentheses: with those characters deleted, the
    concatenated tokens of a text and the text itself are the same. *)
Theorem tokens_keep_terms :
  forall s : str, keep_terms (concat (findall TOKEN_RE s)) = keep_terms s.
Proof.
  intros s. unfold findall, finditer, scan.
  pose proof (segments_concat TOKEN_RE (S (length s)) 0 None s) as E.
  pose proof (token_segments_lits (S (length s)) 0 None s (Nat.lt_succ_diag_r _)) as F.
  revert E F. generalize (segments (S (length s)) TOKEN_RE 0 None s). intros l <- F.
  induction F as [|sg l Hsg F IH]; [reflexivity|].
  destruct sg as [c|m]; cbn [map concat omap list_omap seg_text].
  - rewrite IH. change ([c] ++ concat (map seg_text l)) with (c :: concat (map seg_text l)).
    unfold keep_terms at 2. cbn [List.filter]. rewrite Hsg. reflexivity.
  - rewrite !keep_terms_app, IH. reflexivity.
Qed.

Lemma strip_clauses_sublist (b : str) : sublist (strip_clauses b) b.
Proof.
  unfold strip_clauses.
  assert (H : forall pats txt,
             sublist (fold_left (fun txt pat => sub pat (fun _ => []) txt) pats txt) txt).
  { induction pats as [|p pats IH]; intros txt; [reflexivity|].
    cbn [fold_left]. etransitivity; [apply IH|apply sub_delete_sublist]. }
  apply H.
Qed.

Lemma extract_triples_eq (b : str) :
  _extract_triples b = assemble (findall TOKEN_RE (strip_clauses b)).
Proof. reflexivity. Qed.

(** X6: every triple [_extract_triples] returns has exactly three
    components, each a token of the block after its clauses are removed
    and none a separator; and those tokens, concatenated, are a
    subsequence of the characters of the block. *)
Theorem extract_triples_from_block :
  forall (b : str) (tr : list str),
    In tr (_extract_triples b) ->
    length tr = 3
    /\ Forall (fun t => is_sep t = false
                        /\ In t (findall TOKEN_RE (strip_clauses b))) tr
    /\ sublist (concat (findall TOKEN_RE (strip_clauses b))) b.
Proof.
  intros b tr H. rewrite extract_triples_eq in H.
  destruct (assemble_shape _ _ H) as [Hl Hf].
  split; [exact Hl|]. split; [exact Hf|].
  etransitivity; [apply findall_sublist|apply strip_clauses_sublist].
Qed.

Lemma extract_triples_from_block_witness :
  In (strs ["?x"; "a"; "dbo:Person"]) (_extract_triples "?x a dbo:Person . FILTER(?x) LIMIT 5")
  /\ length (strs ["?x"; "a"; "dbo:Person"]) = 3.
Proof.
  assert (H : In (strs ["?x"; "a"; "dbo:Person"])
                 (_extract_triples "?x a dbo:Person . FILTER(?x) LIMIT 5"))
    by (vm_compute; tauto).
  split; [exact H|]. exact (proj1 (extract_triples_from_block _ _ H)).
Defined.

(** X7: [_extract_triples] returns at most as many triples as the block
    has tokens that are no separators, less two; so a block with fewer
    than three such tokens gives no triple. *)
Theorem extract_triples_needs_three :
  forall b : str,
    length (_extract_triples b)
    <= count_terms (findall TOKEN_RE (strip_clauses b)) - 2.
Proof. intros b. rewrite extract_triples_eq. apply assemble_needs_three. Qed.

(** *** Prefix expansion *)

Lemma split_colon_plain (tok : str) :
  no_colon tok = true -> split_colon tok = (tok, None).
Proof.
  intros H. induction tok as [|c t IH]; [reflexivity|].
  cbn [no_colon forallb] in H. apply andb_prop in H as [Hc Ht].
  cbn [split_colon]. destruct (Ascii.eqb c ":"); [discriminate|].
  rewrite (IH Ht). reflexivity.
Qed.

(** X8: the prefix expansion of [parse_sparql] on a token: a token
    without a colon is kept; a token [p:tail] whose part before the
    first colon is a prefix of the record becomes [namespace:tail], the
    colon kept; with an unknown prefix the token is kept. *)
Theorem expand_cases :
  forall (local : gmap str str) (p tl ns : str),
    no_colon p = true ->
    expand local p = p
    /\ (local !! p = Some ns -> expand local (p ++ ":" ++ tl) = ns ++ ":" ++ tl)
    /\ (local !! p = None -> expand local (p ++ ":" ++ tl) = p ++ ":" ++ tl).
Proof.
  intros local p tl ns Hp. unfold expand.
  rewrite (split_colon_plain p Hp), (split_colon_app p tl Hp).
  split; [reflexivity|]. split; intros ->; reflexivity.
Qed.

Lemma expand_cases_witness :
  expand {[ ("ex" : str) := ("http://ex.org/" : str) ]} ("ex:a:b" : str)
  = ("http://ex.org/:a:b" : str).
Proof.
  apply (proj1 (proj2 (expand_cases {[ ("ex" : str) := ("http://ex.org/" : str) ]}
                         "ex" "a:b" "http://ex.org/" eq_refl))).
  vm_compute. reflexivity.
Defined.

(** *** Batches *)

Lemma parse_one_same_inputs g s s' :
  snd (parse_one g s) = Ok s' -> same_inputs s s'.
Proof.
  unfold parse_one. destruct (index_answers _ _); [|discriminate].
  destruct (search _ _); cbn [snd]; intros [= <-]; repeat split; discriminate.
Qed.

(** X9: when [parse_sparql] returns, it returns one record for each
    record of the batch, in order, each with the [formated_query],
    [query] and [answers] it came with and with both [answers_value] and
    [triples] set. *)
Theorem parse_sparql_keeps_inputs :
  forall (g : gmap str str) (samples out : list sample),
    snd (parse_sparql g samples) = Ok out ->
    Forall2 same_inputs samples out.
Proof.
  intros g samples. revert g.
  induction samples as [|s rest IH]; intros g out H; cbn [parse_sparql] in H.
  - injection H as <-. constructor.
  - pose proof (parse_one_same_inputs g s) as H1.
    destruct (parse_one g s) as [g1 [s'|e]]; [|discriminate].
    specialize (IH g1).
    destruct (parse_sparql g1 rest) as [g2 [rest'|e]]; [|discriminate].
    injection H as <-. constructor; [apply H1; reflexivity|apply IH; reflexivity].
Qed.

Lemma parse_sparql_keeps_inputs_witness :
  exists out, snd (parse_sparql init [record_A; record_B]) = Ok out
              /\ Forall2 same_inputs [record_A; record_B] out.
Proof.
  eexists. split; [vm_compute; reflexivity|].
  apply (parse_sparql_keeps_inputs init). vm_compute. reflexivity.
Defined.

(** X10: [parse_sparql] on a batch in two parts is [parse_sparql] on the
    first part and then, from the global prefix table that leaves, on
    the second: the table and the records or the exception are the same. *)
Theorem parse_sparql_app :
  forall (g : gmap str str) (a b : list sample),
    parse_sparql g (a ++ b)
    = match parse_sparql g a with
      | (g1, Raise e) => (g1, Raise e)
      | (g1, Ok oa) =>
          match parse_sparql g1 b with
          | (g2, Raise e) => (g2, Raise e)
          | (g2, Ok ob) => (g2, Ok (oa ++ ob))
          end
      end.
Proof.
  intros g a. revert g. induction a as [|s a IH]; intros g b; cbn [app parse_sparql].
  - destruct (parse_sparql g b) as [g2 [ob|e]]; reflexivity.
  - destruct (parse_one g s) as [g1 [s'|e]]; [|reflexivity].
    rewrite IH. destruct (parse_sparql g1 a) as [g2 [oa|e]]; [|reflexivity].
    destruct (parse_sparql g2 b) as [g3 [ob|e]]; reflexivity.
Qed.

(** *** The answer index *)

Lemma str_eqb_sym a b : str_eqb a b = str_eqb b a.
Proof.
  revert b. induction a as [|x a IH]; intros [|y b]; cbn; try reflexivity.
  rewrite Ascii.eqb_sym, IH. reflexivity.
Qed.

Lemma str_eqb_trans a b c : str_eqb a b = true -> str_eqb a c = str_eqb b c.
Proof. intros H. apply str_eqb_eq in H. subst. reflexivity. Qed.

Lemma key_eqb_str k v : key_eqb k (PStr v) = true -> k = PStr v.
Proof.
  destruct k; cbn; try discriminate.
  intros H. apply str_eqb_eq in H. subst. reflexivity.
Qed.

Lemma answers_for_append m v x v' :
  answers_for (setdefault_append m (PStr v) x) v'
  = answers_for m v' ++ (if str_eqb v v' then [x] else []).
Proof.
  unfold answers_for. induction m as [|[k l] m IH]; cbn [setdefault_append find fst snd].
  - cbn [key_eqb]. destruct (str_eqb v v'); reflexivity.
  - destruct (key_eqb k (PStr v)) eqn:Ek.
    + apply key_eqb_str in Ek. subst k. cbn [find fst snd key_eqb].
      destruct (str_eqb v v'); [reflexivity|]. rewrite app_nil_r. reflexivity.
    + cbn [find fst snd]. destruct (key_eqb k (PStr v')) eqn:Ek'; [|exact IH].
      apply key_eqb_str in Ek'. subst k. cbn [key_eqb] in Ek.
      rewrite str_eqb_sym, Ek. cbn [snd]. rewrite app_nil_r. reflexivity.
Qed.

Lemma index_answers_values l :
  forall m, exists m',
    index_answers m (map entry_of l) = Ok m'
    /\ forall v, answers_for m' v = answers_for m v ++ values_of v l.
Proof.
  induction l as [|a l IH]; intros m.
  - exists m. split; [reflexivity|]. intros v. rewrite app_nil_r. reflexivity.
  - destruct a as [b|v x]; cbn [map entry_of index_answers index_answer bind].
    + destruct (IH m) as (m' & H1 & H2). exists m'. split; [exact H1|exact H2].
    + unfold first_of, hashable, bind, getitem. cbn [assoc].
      rewrite str_eqb_refl. cbn [assoc str_eqb]. 
      change (str_eqb "value" "value") with true. cbn iota.
      destruct (IH (setdefault_append m (PStr v) x)) as (m' & H1 & H2).
      exists m'. split; [exact H1|]. intros v'.
      rewrite H2, answers_for_append. cbn [values_of].
      destruct (str_eqb v v'); rewrite <- app_assoc; reflexivity.
Qed.

(** X11: on answers that are booleans or single-variable bindings, the
    answer loop of [parse_sparql] returns, and the map it builds gives
    for every variable the values bound to it, in the order of the
    answers; booleans contribute nothing. *)
Theorem answers_grouped_by_variable :
  forall l : list answer,
    exists m,
      index_answers [] (map entry_of l) = Ok m
      /\ forall v, answers_for m v = values_of v l.
Proof.
  intros l. destruct (index_answers_values l []) as (m & H1 & H2).
  exists m. split; [exact H1|]. intros v. rewrite H2. reflexivity.
Qed.

(** *** Records without a matching clause *)

Lemma run_seq a b pv s g k :
  run (Seq a b) pv s g k = run a pv s g (fun pv' s' g' => run b pv' s' g' k).
Proof. reflexivity. Qed.

Lemma no_open_app a b : no_open (a ++ b) = no_open a && no_open b.
Proof. apply forallb_app. Qed.

Lemma where_needs_open_brace (q : str) :
  no_open q = true -> search WHERE_PATTERN q = None.
Proof.
  intros Hq. destruct (search WHERE_PATTERN q) as [m|] eqn:E; [|reflexivity].
  exfalso. apply search_from_inv in E as (pre & post & -> & E).
  rewrite no_open_app in Hq. apply andb_prop in Hq as [_ Hq].
  unfold match_at in E.
  destruct (run WHERE_PATTERN _ post [] _) as [o|] eqn:R; [clear E|discriminate].
  unfold WHERE_PATTERN in R. cbn [seqs] in R.
  rewrite run_seq in R.
  apply run_split in R as (pv1 & u1 & s1 & g1 & -> & R).
  rewrite no_open_app in Hq. apply andb_prop in Hq as [_ Hq].
  rewrite run_seq in R.
  apply run_split in R as (pv2 & u2 & s2 & g2 & -> & R).
  rewrite no_open_app in Hq. apply andb_prop in Hq as [_ Hq].
  rewrite run_seq in R. unfold lit in R. cbn [run] in R.
  destruct s2 as [|c t]; [discriminate|].
  destruct (Ascii.eqb "{" c) eqn:Ec; [|discriminate].
  apply Ascii.eqb_eq in Ec. subst c. discriminate Hq.
Qed.

Lemma parse_one_no_open g s :
  no_open (query_text s) = true -> answers_ok s = true ->
  exists s', snd (parse_one g s) = Ok s' /\ triples s' = Some [].
Proof.
  intros Hq Ha. unfold parse_one.
  destruct (index_answers_ok _ [] Ha) as [m ->].
  fold (query_text s). rewrite (where_needs_open_brace _ Hq).
  eexists. split; reflexivity.
Qed.

(** X12: on a batch whose query texts have no opening brace and whose
    answers are well formed, [parse_sparql] returns and every record has
    the empty list of triples. *)
Theorem no_brace_no_triples :
  forall (g : gmap str str) (samples : list sample),
    forallb (fun s => no_open (query_text s) && answers_ok s) samples = true ->
    exists out,
      snd (parse_sparql g samples) = Ok out
      /\ Forall (fun s' => triples s' = Some []) out.
Proof.
  intros g samples. revert g.
  induction samples as [|s rest IH]; intros g H; cbn [forallb] in H.
  - exists []. split; [reflexivity|constructor].
  - apply andb_prop in H as [Hs Hr]. apply andb_prop in Hs as [Hq Ha].
    destruct (parse_one_no_open g s Hq Ha) as (s' & H1 & H2).
    cbn [parse_sparql]. destruct (parse_one g s) as [g1 r1]. cbn [snd] in H1. subst r1.
    destruct (IH g1 Hr) as (out & H3 & H4).
    destruct (parse_sparql g1 rest) as [g2 r2]. cbn [snd] in H3. subst r2.
    exists (s' :: out). split; [reflexivity|]. constructor; assumption.
Qed.

Lemma no_brace_no_triples_witness :
  exists out,
    snd (parse_sparql init
           [Sample (Some ("ASK WHERE ?x a dbo:Person" : str)) None (Some [PBool true])
                   None None])
    = Ok out
    /\ Forall (fun s' => triples s' = Some []) out.
Proof.
  apply (no_brace_no_triples init
           [Sample (Some ("ASK WHERE ?x a dbo:Person" : str)) None (Some [PBool true])
                   None None]).
  vm_compute. reflexivity.
Defined.

(** *** The collapsed text *)

(** X13: when the text has a SELECT keyword, the result of
    [uri_collapse_after_select] begins with that keyword as it was
    written (six characters) and has no white space at either end. *)
Theorem collapse_output_shape :
  forall (T : str) (m : match_obj),
    search SELECT_RX T = Some m ->
    length (m_text m) = 6
    /\ (exists rest, uri_collapse_after_select T = m_text m ++ rest)
    /\ strip (uri_collapse_after_select T) = uri_collapse_after_select T.
Proof.
  intros T m Hs.
  destruct (search_SELECT_inv _ _ Hs) as (x & Hx & Hm).
  destruct (select_at_inv _ _ _ Hx) as
    (sel & c6 & rest0 & -> & Hs0 & Hl & Hn & Hst & He & Hne & Hw & _).
  assert (Ht : m_text m = sel) by (rewrite Hm; reflexivity).
  unfold uri_collapse_after_select. rewrite Hs, Hs0.
  assert (Hb : strip (sel ++ rest0) = sel ++ rstrip_with isspace rest0).
  { unfold strip. rewrite lstrip_with_id.
    - apply rstrip_with_app_keep; assumption.
    - destruct sel; [congruence|exact Hst]. }
  fold (collapse_body (strip (sel ++ rest0))).
  assert (HO : collapse_body (strip (sel ++ rest0))
               = sel ++ collapse_body (rstrip_with isspace rest0)).
  { rewrite Hb. apply collapse_body_frame, Hn. }
  rewrite Ht. split; [exact Hl|]. split.
  - eexists. exact HO.
  - apply strip_id.
    + rewrite HO. apply stopped_head_app; assumption.
    + apply collapse_body_ends_ok, strip_ends_ok.
Qed.

Lemma collapse_output_shape_witness :
  strip (uri_collapse_after_select "PREFIX a: <b>  select ?x { ?x a <http://dbpedia.org/ontology/City> }   ")
  = uri_collapse_after_select "PREFIX a: <b>  select ?x { ?x a <http://dbpedia.org/ontology/City> }   ".
Proof.
  eapply collapse_output_shape. vm_compute. reflexivity.
Defined.

(** *** Identifiers outside the table *)

Lemma startswith_app_l (s a b : str) :
  startswith s (a ++ b) = true -> startswith s a = true.
Proof.
  revert s. induction a as [|x a IH]; intros s H; [reflexivity|].
  cbn [app startswith] in *. destruct s as [|y s]; [discriminate|].
  apply andb_prop in H as [-> H]. cbn [andb]. apply IH, H.
Qed.

Lemma namespaces_http :
  forallb (fun e => startswith (fst e) "http://") _PREFIX_ORDER = true.
Proof. vm_compute. reflexivity. Qed.

Lemma replace_with_none order uri :
  (forall ns p, In (ns, p) order -> startswith uri ns = false) ->
  replace_with order uri = None.
Proof.
  induction order as [|[ns p] order IH]; intros H; cbn [replace_with]; [reflexivity|].
  rewrite (H ns p (or_introl eq_refl)). apply IH.
  intros ns' p' Hin. apply (H ns' p'). right. exact Hin.
Qed.

Lemma not_http_not_replaced uri :
  startswith uri "http://" = false -> replace_with _PREFIX_ORDER uri = None.
Proof.
  intros H. apply replace_with_none. intros ns p Hin.
  destruct (startswith uri ns) eqn:E; [|reflexivity].
  pose proof namespaces_http as Hh. rewrite forallb_forall in Hh.
  specialize (Hh _ Hin). cbn [fst] in Hh.
  apply startswith_split in Hh. rewrite Hh in E.
  apply startswith_app_l in E. congruence.
Qed.

(** X14: [_replace_uri] returns the whole match unchanged when the
    identifier in the brackets, stripped, does not start with [http://]:
    every namespace of the table does. *)
Theorem replace_uri_keeps_other_schemes :
  forall m : match_obj,
    startswith (strip (group (m_groups m) 1)) "http://" = false ->
    _replace_uri m = m_text m.
Proof.
  intros m H. unfold _replace_uri. rewrite (not_http_not_replaced _ H). reflexivity.
Qed.

Lemma replace_uri_keeps_other_schemes_witness :
  _replace_uri (MatchObj 0 "< https://dbpedia.org/resource/Paris >"
                  [(1, "https://dbpedia.org/resource/Paris" : str)] (Some ">"%char) [])
  = ("< https://dbpedia.org/resource/Paris >" : str).
Proof.
  apply (replace_uri_keeps_other_schemes
           (MatchObj 0 "< https://dbpedia.org/resource/Paris >"
              [(1, "https://dbpedia.org/resource/Paris" : str)] (Some ">"%char) [])).
  vm_compute. reflexivity.
Defined.

(* ================================================================== *)
(** ** Properties of the retriever helpers *)
(* ================================================================== *)

Import TripleRetrieval.

(** The retriever spells out the table of the collapser. *)
Lemma prefix_order_same : _PREFIX_ORDER = Preprocessors._PREFIX_ORDER.
Proof. reflexivity. Qed.

Lemma inner_slice_brackets (u : str) : inner_slice ("<" ++ u ++ ">") = u.
Proof.
  unfold inner_slice. cbn [list_ascii_of_string app drop length].
  rewrite length_app. cbn [length].
  replace (S (length u + 1) - 2) with (length u) by lia.
  apply take_app_length.
Qed.

Lemma bracketed_text_brackets (u : str) : bracketed_text ("<" ++ u ++ ">") = true.
Proof.
  unfold bracketed_text, endswith. cbn [list_ascii_of_string app startswith].
  rewrite Ascii.eqb_refl. cbn [andb rev].
  rewrite rev_app_distr. cbn [rev app startswith]. rewrite Ascii.eqb_refl. reflexivity.
Qed.

Lemma shorten_brackets (u : str) :
  _shorten ("<" ++ u ++ ">")
  = match replace_with _PREFIX_ORDER u with Some out => out | None => u end.
Proof.
  unfold _shorten. fold (bracketed_text ("<" ++ u ++ ">")).
  rewrite bracketed_text_brackets, inner_slice_brackets. reflexivity.
Qed.

Lemma sub_bracketed uri :
  forallb uri_char uri = true -> uri <> [] ->
  sub IRI_RX _replace_uri ("<" ++ uri ++ ">")
  = match replace_with _PREFIX_ORDER uri with
    | Some out => out
    | None => "<" ++ uri ++ ">"
    end.
Proof.
  intros Hu Hn.
  change (sub IRI_RX _replace_uri ("<" ++ uri ++ ">"))
    with (collapse_body ("<" ++ uri ++ ">")).
  assert (E : ("<" : str) ++ uri ++ ">" = bracketed [] uri [] ++ []).
  { unfold bracketed. cbn [app list_ascii_of_string]. rewrite app_nil_r. reflexivity. }
  rewrite E at 1. rewrite collapse_body_step.
  rewrite iri_at_intro by (assumption || reflexivity).
  unfold collapse_iri. rewrite (strip_uri_chars _ Hu), collapse_body_nil, app_nil_r.
  destruct (replace_with _ _); [reflexivity|].
  unfold bracketed. reflexivity.
Qed.

(** X15: on a bracketed identifier without white space, [_shorten] of
    the retriever and the collapsing pass of the preprocessor give the
    same prefixed name when a namespace of the table applies; when none
    does, [_shorten] drops the brackets and the collapsing pass keeps
    them. *)
Theorem shorten_agrees_with_collapser :
  forall uri : str,
    forallb uri_char uri = true -> uri <> [] ->
    (forall out, replace_with _PREFIX_ORDER uri = Some out ->
       _shorten ("<" ++ uri ++ ">") = out
       /\ sub IRI_RX _replace_uri ("<" ++ uri ++ ">") = out)
    /\ (replace_with _PREFIX_ORDER uri = None ->
          _shorten ("<" ++ uri ++ ">") = uri
          /\ sub IRI_RX _replace_uri ("<" ++ uri ++ ">") = "<" ++ uri ++ ">").
Proof.
  intros uri Hu Hn. rewrite shorten_brackets, (sub_bracketed uri Hu Hn).
  split; [intros out ->|intros ->]; split; reflexivity.
Qed.

Lemma shorten_agrees_with_collapser_witness :
  _shorten "<http://dbpedia.org/resource/Paris>" = ("res:Paris" : str)
  /\ sub IRI_RX _replace_uri "<http://dbpedia.org/resource/Paris>" = ("res:Paris" : str).
Proof.
  apply (proj1 (shorten_agrees_with_collapser "http://dbpedia.org/resource/Paris"
                  eq_refl ltac:(discriminate))).
  vm_compute. reflexivity.
Defined.

Lemma replaced_not_http uri out :
  replace_with _PREFIX_ORDER uri = Some out -> startswith out "http://" = false.
Proof.
  intros H. apply replace_with_inv in H as (ns & p & Hin & _ & ->).
  unfold _PREFIX_ORDER in Hin. vm_compute in Hin.
  repeat match type of Hin with _ \/ _ => destruct Hin as [Hin|Hin] end;
    try contradiction; injection Hin as <- <-; reflexivity.
Qed.

(** X16: [_shorten] applied twice is [_shorten] applied once, whenever
    its result is not itself enclosed in angle brackets. *)
Theorem shorten_idempotent :
  forall uri : str,
    bracketed_text (_shorten uri) = false ->
    _shorten (_shorten uri) = _shorten uri.
Proof.
  intros uri Hb. unfold _shorten at 1. fold (bracketed_text (_shorten uri)).
  rewrite Hb. unfold _shorten in *. rewrite prefix_order_same in *.
  set (u := if startswith uri "<" && endswith uri ">" then inner_slice uri else uri) in *.
  destruct (replace_with Preprocessors._PREFIX_ORDER u) as [out|] eqn:E.
  - rewrite (not_http_not_replaced out (replaced_not_http _ _ E)). reflexivity.
  - rewrite E. reflexivity.
Qed.

Lemma shorten_idempotent_witness :
  _shorten (_shorten "<http://dbpedia.org/ontology/:birthPlace>")
  = _shorten "<http://dbpedia.org/ontology/:birthPlace>".
Proof.
  apply shorten_idempotent. vm_compute. reflexivity.
Defined.

(** *** Cleaning an entity name *)

Lemma match_at_chr p i pv s :
  match_at (Chr p) i pv s
  = match s with
    | c :: t => if p c then Some (MatchObj i [c] [] (Some c) t) else None
    | [] => None
    end.
Proof.
  unfold match_at. cbn [run]. destruct s as [|c t]; [reflexivity|].
  destruct (p c); [|reflexivity]. do 2 f_equal. apply (consumed_app [c]).
Qed.

Lemma sub_chr_delete p (s : str) :
  sub (Chr p) (fun _ => []) s = List.filter (fun c => negb (p c)) s.
Proof.
  unfold sub, scan. generalize 0, (@None ascii).
  induction s as [|c t IH]; intros i pv.
  - cbn [segments length]. rewrite match_at_chr. reflexivity.
  - cbn [segments length]. rewrite match_at_chr.
    destruct (p c) eqn:E; cbn [m_rest m_text m_prev length List.filter negb];
      rewrite ?E; cbn [negb].
    + replace (length t <? S (length t))%nat with true
        by (symmetry; apply Nat.ltb_lt; lia).
      cbn [map concat render app]. apply IH.
    + cbn [map concat render app]. f_equal. apply IH.
Qed.

Lemma forallb_filter_self (q : ascii -> bool) (s : str) :
  forallb q s = true -> List.filter q s = s.
Proof.
  induction s as [|c s IH]; cbn; [reflexivity|].
  intros H. apply andb_prop in H as [-> H]. f_equal. apply IH, H.
Qed.

Lemma underscore_clean (s : str) :
  forallb (fun c => negb (unclean c)) s = true -> forallb clean_char (underscore s) = true.
Proof.
  unfold underscore. induction s as [|c s IH]; [reflexivity|].
  cbn [map forallb]. intros H. apply andb_prop in H as [Hc Hs].
  rewrite (IH Hs), andb_true_r.
  destruct (Ascii.eqb c " ") eqn:E; [reflexivity|].
  unfold clean_char. rewrite Hc, E. reflexivity.
Qed.

Lemma underscore_id (s : str) :
  forallb clean_char s = true -> underscore s = s.
Proof.
  unfold underscore. induction s as [|c s IH]; [reflexivity|].
  cbn [map forallb]. intros H. apply andb_prop in H as [Hc Hs]. rewrite (IH Hs).
  unfold clean_char in Hc. apply andb_prop in Hc as [_ Hc].
  destruct (Ascii.eqb c " "); [discriminate|reflexivity].
Qed.

Lemma clean_uri_chars (e : str) : forallb clean_char (_clean_uri e) = true.
Proof.
  unfold _clean_uri. apply forallb_strip, underscore_clean.
  rewrite sub_chr_delete. apply forallb_forall. intros c Hc.
  apply filter_In in Hc as [_ Hc]. exact Hc.
Qed.

(** X17: the result of [_clean_uri] consists of word characters, hyphens
    and white space other than the space character only, and
    [_clean_uri] leaves it unchanged. *)
Theorem clean_uri_idempotent :
  forall e : str,
    forallb clean_char (_clean_uri e) = true
    /\ _clean_uri (_clean_uri e) = _clean_uri e.
Proof.
  intros e. pose proof (clean_uri_chars e) as H. split; [exact H|].
  unfold _clean_uri at 1. rewrite sub_chr_delete.
  rewrite forallb_filter_self.
  - rewrite (underscore_id _ H). unfold _clean_uri. apply strip_strip.
  - apply forallb_forall. intros c Hc. rewrite forallb_forall in H.
    specialize (H c Hc). unfold clean_char in H. apply andb_prop in H as [H _]. exact H.
Qed.

Lemma underscore_app (a b : str) : underscore (a ++ b) = underscore a ++ underscore b.
Proof. apply map_app. Qed.

(** X18: [_clean_uri] does not remove a space at either end of an entity
    name: the final strip comes after spaces are replaced, so a name
    between two spaces comes out between two underscores. *)
Theorem clean_uri_outer_spaces :
  forall e : str,
    _clean_uri (" " ++ e ++ " ")
    = "_" ++ underscore (List.filter (fun c => negb (unclean c)) e) ++ "_".
Proof.
  intros e. unfold _clean_uri. rewrite sub_chr_delete.
  change (" " ++ e ++ " ") with ([" "%char] ++ e ++ [" "%char]).
  rewrite !List.filter_app, !underscore_app.
  change (underscore (List.filter (fun c => negb (unclean c)) [" "%char]))
    with ["_"%char].
  set (x := underscore (List.filter (fun c => negb (unclean c)) e)).
  apply strip_id; [reflexivity|].
  rewrite app_assoc. apply ends_ok_snoc.
Qed.

(** *** The subject filled in for a row without one *)

Lemma replace_with_resource (x : str) :
  replace_with _PREFIX_ORDER (resource_uri x) = Some ("res:" ++ lstrip_colon x).
Proof. vm_compute. reflexivity. Qed.

(** X19: the subject or object that [_fetch_dbpedia_triples] fills in
    for a row without one, the resource identifier of the cleaned entity
    name, is shortened by [_shorten] to [res:] followed by the cleaned
    name. *)
Theorem shorten_resource_of_clean_name :
  forall e : str,
    _shorten (resource_uri (_clean_uri e)) = "res:" ++ _clean_uri e.
Proof.
  intros e. unfold _shorten.
  change (startswith (resource_uri (_clean_uri e)) "<") with false. cbn [andb].
  rewrite replace_with_resource. do 2 f_equal.
  apply lstrip_with_id.
  pose proof (clean_uri_chars e) as H.
  destruct (_clean_uri e) as [|c t]; [reflexivity|].
  cbn [forallb] in H. apply andb_prop in H as [H _].
  cbn [stopped]. destruct (Ascii.eqb ":" c) eqn:E; [|reflexivity].
  apply Ascii.eqb_eq in E. subst c. discriminate H.
Qed.

(** *** Entities that are skipped *)

Lemma lstrip_with_nil p (s : str) : lstrip_with p s = [] <-> forallb p s = true.
Proof.
  induction s as [|c s IH]; cbn [lstrip_with forallb]; [tauto|].
  destruct (p c); cbn [andb]; [exact IH|]. split; discriminate.
Qed.

Lemma strip_nil (s : str) : strip s = [] <-> forallb isspace s = true.
Proof.
  unfold strip, rstrip_with. split.
  - intros H. apply (f_equal (@rev ascii)) in H. rewrite rev_involutive in H.
    cbn [rev] in H. apply lstrip_with_nil in H. apply forallb_rev in H.
    rewrite rev_involutive in H. apply lstrip_with_nil.
    pose proof (lstrip_with_stopped isspace s) as Hs.
    destruct (lstrip_with isspace s) as [|c t]; [reflexivity|].
    cbn [forallb stopped] in H, Hs. apply andb_prop in H as [H _].
    rewrite H in Hs. discriminate Hs.
  - intros H. apply lstrip_with_nil in H. rewrite H. reflexivity.
Qed.

Lemma forallb_filter_imp (q k : ascii -> bool) (s : str) :
  forallb q (List.filter k s) = forallb (fun c => negb (k c) || q c) s.
Proof.
  induction s as [|c s IH]; cbn [List.filter forallb]; [reflexivity|].
  destruct (k c); cbn [forallb negb orb]; rewrite IH; reflexivity.
Qed.

Lemma forallb_underscore (s : str) :
  forallb isspace (underscore s)
  = forallb (fun c => isspace c && negb (Ascii.eqb c " ")) s.
Proof.
  unfold underscore. induction s as [|c s IH]; cbn [map forallb]; [reflexivity|].
  rewrite IH. f_equal. destruct (Ascii.eqb c " ") eqn:E; cbn [negb].
  - rewrite andb_false_r. reflexivity.
  - rewrite andb_true_r. reflexivity.
Qed.

Lemma clean_uri_nil (e : str) : _clean_uri e = [] <-> forallb vanishing e = true.
Proof.
  unfold _clean_uri. rewrite strip_nil, sub_chr_delete.
  rewrite forallb_underscore, forallb_filter_imp.
  assert (E : forallb (fun c => negb (negb (unclean c))
                                || isspace c && negb (Ascii.eqb c " ")) e
              = forallb vanishing e).
  { induction e as [|c e IH]; cbn [forallb]; [reflexivity|].
    rewrite IH. unfold vanishing. rewrite negb_involutive. reflexivity. }
  rewrite E. tauto.
Qed.

(** X22: in the loop over the entities of [DBpediaRetriever.run], an
    entity is skipped, with the single placeholder triple, exactly when
    every character of its name is deleted by [_clean_uri] or is white
    space other than the space character; any other entity is fetched
    under its cleaned name. A name of spaces only is not skipped. *)
Theorem entity_skipped_iff :
  forall (fetch : str -> list (str * str * str)) (e : str),
    (_clean_uri e = [] <-> forallb vanishing e = true)
    /\ entity_triples fetch e
       = if forallb vanishing e
         then [("SKIPPED" : str, "SKIPPED" : str, _shorten e)]
         else fetch (_clean_uri e).
Proof.
  intros fetch e. split; [apply clean_uri_nil|].
  unfold entity_triples. pose proof (clean_uri_nil e) as [H1 H2].
  destruct (forallb vanishing e).
  - rewrite H2; reflexivity.
  - destruct (_clean_uri e); [discriminate (H1 eq_refl)|reflexivity].
Qed.

(* ================================================================== *)
(** ** Properties of the QALD preprocessor *)
(* ================================================================== *)

Import QALDPreprocessor.

Lemma pick_question_dicts (b : bool) (l : list pyval) (cur : pyval) :
  forallb is_dict l = true -> exists r, pick_question b cur l = Return r.
Proof.
  revert cur. induction l as [|p l IH]; intros cur H; cbn [pick_question].
  - eauto.
  - cbn [forallb] in H. apply andb_prop in H as [Hp Hl].
    destruct p; try discriminate Hp. cbn [dict_get and_then].
    destruct (is_str _ _); cbn [and_then]; destruct b; eauto.
Qed.

Lemma pick_question_no_english (l : list pyval) (cur : pyval) :
  forallb is_dict l = true -> existsb english l = false ->
  pick_question true cur l = Return cur.
Proof.
  revert cur. induction l as [|p l IH]; intros cur H E; cbn [pick_question].
  - reflexivity.
  - cbn [forallb existsb] in H, E. apply andb_prop in H as [Hp Hl].
    apply orb_false_elim in E as [Ep El].
    destruct p; try discriminate Hp. cbn [dict_get and_then].
    cbn [english] in Ep. rewrite Ep. cbn [and_then]. apply IH; assumption.
Qed.

(** X20: the loop over the phrasings of a question in [_filter_english]:
    with [include_all_langs] set, the question text is the string of the
    last English phrasing; without it only the first phrasing is looked
    at, so an English phrasing in a later place is not used. *)
Theorem question_selection :
  forall (cur p : pyval) (l1 l2 : list pyval),
    forallb is_dict (l1 ++ p :: l2) = true ->
    english p = true ->
    existsb english l2 = false ->
    pick_question true cur (l1 ++ p :: l2) = Return (string_of p)
    /\ pick_question false cur (l1 ++ p :: l2)
       = Return (match l1 with
                 | [] => string_of p
                 | p0 :: _ => if english p0 then string_of p0 else cur
                 end).
Proof.
  intros cur p l1 l2 H Hp H2. split.
  - revert cur H. induction l1 as [|p0 l1 IH]; intros cur H.
    + cbn [app forallb] in H. apply andb_prop in H as [Hd Hl].
      cbn [app pick_question]. destruct p; try discriminate Hd.
      cbn [dict_get and_then]. cbn [english] in Hp. rewrite Hp. cbn [and_then].
      apply pick_question_no_english; assumption.
    + cbn [app forallb] in H. apply andb_prop in H as [Hd Hl].
      cbn [app pick_question]. destruct p0; try discriminate Hd.
      cbn [dict_get and_then]. destruct (is_str _ _); cbn [and_then]; apply IH, Hl.
  - destruct l1 as [|p0 l1]; cbn [app forallb] in H; apply andb_prop in H as [Hd Hl].
    + cbn [app pick_question]. destruct p; try discriminate Hd.
      cbn [dict_get and_then]. cbn [english] in Hp. rewrite Hp. reflexivity.
    + cbn [app pick_question]. destruct p0; try discriminate Hd.
      cbn [dict_get and_then english]. destruct (is_str _ _); reflexivity.
Qed.

Lemma question_selection_witness :
  pick_question true (PStr "")
    [PDict [("language" : str, PStr "de"); ("string" : str, PStr "Wer?")];
     PDict [("language" : str, PStr "en"); ("string" : str, PStr "Who?")]]
  = Return (PStr "Who?")
  /\ pick_question false (PStr "")
       [PDict [("language" : str, PStr "de"); ("string" : str, PStr "Wer?")];
        PDict [("language" : str, PStr "en"); ("string" : str, PStr "Who?")]]
     = Return (PStr "").
Proof.
  apply (question_selection (PStr "")
           (PDict [("language" : str, PStr "en"); ("string" : str, PStr "Who?")])
           [PDict [("language" : str, PStr "de"); ("string" : str, PStr "Wer?")]] []);
    reflexivity.
Defined.

(** *** The QALD pipeline *)

Lemma assoc_app {A} (k k' : str) (v : A) (d : list (str * A)) :
  assoc k (d ++ [(k', v)])
  = match assoc k d with
    | Some x => Some x
    | None => if str_eqb k k' then Some v else None
    end.
Proof.
  induction d as [|[k0 v0] d IH]; cbn [app assoc].
  - destruct (str_eqb k k'); reflexivity.
  - destruct (str_eqb k k0); [reflexivity|apply IH].
Qed.

Lemma load_one_ok (q : pyval) :
  question_ok q = true ->
  exists q' s, load_one q = Return q' /\ query_of q = Some s /\ loaded q' s.
Proof.
  destruct q as [| | | | |d]; try discriminate. cbn [question_ok].
  intros H. apply andb_prop in H as [H Ha]. apply andb_prop in H as [Hq Hp].
  destruct (query_of (PDict d)) as [s|] eqn:Eq; [clear Hq|discriminate].
  cbn [query_of] in Eq. unfold load_one. cbn [contains lift and_then].
  destruct (assoc "new_query" d) as [nq|] eqn:En.
  - destruct nq; try discriminate Eq. injection Eq as ->.
    exists (PDict d), s. split; [reflexivity|]. split; [reflexivity|].
    exists d. repeat split; assumption.
  - cbn [dict_get and_then].
    assert (Hl : forall nq : str,
               loaded (PDict (d ++ [("new_query" : str, PStr nq)])) nq).
    { intros nq. eexists. split; [reflexivity|].
      unfold phrases_ok. rewrite !assoc_app, En.
      split; [reflexivity|]. unfold phrases_ok in Hp.
      split.
      - destruct (assoc "question" d); [exact Hp|reflexivity].
      - destruct (assoc "answers" d); [exact Ha|reflexivity]. }
    destruct (assoc "query" d) as [qu|] eqn:Equ; cbn [default from_option id].
    + destruct qu as [| | | | |qd]; try discriminate Eq.
      cbn [dict_get and_then].
      destruct (assoc "sparql" qd) as [raw|] eqn:Er; cbn [default from_option id].
      * destruct raw as [| | |raw| |]; try discriminate Eq. injection Eq as <-.
        cbn [collapse_val lift and_then]. eexists _, _.
        split; [reflexivity|]. split; [reflexivity|]. apply Hl.
      * injection Eq as <-. cbn [collapse_val lift and_then]. eexists _, _.
        split; [reflexivity|]. split; [reflexivity|]. apply Hl.
    + injection Eq as <-. cbn [dict_get assoc default from_option id and_then collapse_val lift].
      eexists _, _. split; [reflexivity|]. split; [reflexivity|]. apply Hl.
Qed.

Lemma seq_item_head {A} (x : A) (l : list A) : seq_item (x :: l) 0 = Ok x.
Proof. reflexivity. Qed.

Lemma first_answers_ok (ans : option pyval) :
  answer_ok ans = true ->
  exists bs,
    (a0 <- getitem (if truthy (default PNone ans) then default PNone ans
                    else PList [PDict []]) (PInt 0) ;;
     pick_answers a0) = Ok (PList bs)
    /\ forallb entry_ok bs = true.
Proof.
  intros H.
  assert (E0 : (a0 <- getitem (PList [PDict []]) (PInt 0) ;; pick_answers a0)
               = Ok (PList [])) by reflexivity.
  destruct ans as [[| | | |[|a0 rest]|]|]; try discriminate H;
    cbn [default from_option id truthy is_nil negb]; try (exists []; split; [exact E0|reflexivity]).
  destruct a0 as [| | | | |a]; try discriminate H.
  cbn [answer_ok] in H.
  cbn [getitem as_index]. rewrite seq_item_head. cbn [bind].
  unfold pick_answers. cbn [contains bind].
  destruct (assoc "results" a) as [r|] eqn:Er.
  - destruct r as [| | | | |r]; try discriminate H.
    cbn [getitem]. rewrite Er. cbn [bind].
    destruct (assoc "bindings" r) as [bs|] eqn:Eb; [|discriminate H].
    destruct bs as [| | | |bs|]; try discriminate H.
    exists bs. split; [|exact H]. cbn [getitem]. rewrite Eb. reflexivity.
  - destruct (assoc "boolean" a) as [b|] eqn:Eb.
    + destruct b as [|b| | | |]; try discriminate H.
      cbn [getitem]. rewrite Eb. cbn [bind].
      exists [PBool b]. split; reflexivity.
    + exists []. split; reflexivity.
Qed.

Lemma lift_bind {A B} (x : result A) (f : A -> result B) :
  lift (bind x f) = and_then (lift x) (fun a => lift (f a)).
Proof. destruct x; reflexivity. Qed.

Lemma filter_one_ok (b : bool) (q : pyval) (s : str) :
  loaded q s ->
  exists e smp,
    filter_one b q = Return e /\ to_sample e = Some smp
    /\ formated_query smp = Some s /\ query smp = None /\ answers_ok smp = true.
Proof.
  intros (d & -> & En & Hp & Ha). unfold filter_one.
  cbn [dict_get and_then getitem]. rewrite En. cbn [lift and_then].
  unfold phrases_ok in Hp.
  assert (Hl : exists l, default (PList []) (assoc "question" d) = PList l
                         /\ forallb is_dict l = true).
  { destruct (assoc "question" d) as [v|]; [|exists []; split; reflexivity].
    destruct v; try discriminate Hp. eexists; split; [reflexivity|exact Hp]. }
  destruct Hl as (l & -> & Hl). cbn [items_of lift and_then].
  destruct (pick_question_dicts b l (PStr "") Hl) as [qn ->]. cbn [and_then].
  destruct (first_answers_ok _ Ha) as (bs & E & Hbs).
  apply (f_equal lift) in E. rewrite lift_bind in E. cbn [lift] in E.
  destruct (lift (getitem _ (PInt 0))) as [a0|r]; cbn [and_then] in E |- *;
    [|discriminate E].
  rewrite E. cbn [and_then].
  eexists _, _. split; [reflexivity|]. cbn [to_sample e_formated_query e_answers].
  split; [reflexivity|]. repeat split. exact Hbs.
Qed.

Lemma for_each_app {A B} (f : A -> res B) (l1 l2 : list A) :
  for_each f (l1 ++ l2)
  = (b1 <~ for_each f l1 ;; b2 <~ for_each f l2 ;; Return (b1 ++ b2)).
Proof.
  induction l1 as [|a l1 IH]; cbn [app for_each and_then].
  - destruct (for_each f l2); reflexivity.
  - destruct (f a); cbn [and_then]; [|reflexivity]. rewrite IH.
    destruct (for_each f l1); cbn [and_then]; [|reflexivity].
    destruct (for_each f l2); reflexivity.
Qed.

Lemma load_all_ok (qs : list pyval) :
  forallb question_ok qs = true ->
  exists qs', for_each load_one qs = Return qs'
              /\ Forall2 (fun q q' => exists s, query_of q = Some s /\ loaded q' s) qs qs'.
Proof.
  induction qs as [|q qs IH]; cbn [forallb for_each]; intros H.
  - exists []. split; [reflexivity|constructor].
  - apply andb_prop in H as [Hq Hr].
    destruct (load_one_ok q Hq) as (q' & s & -> & Es & Hl).
    destruct (IH Hr) as (qs' & -> & HF). cbn [and_then].
    exists (q' :: qs'). split; [reflexivity|]. constructor; eauto.
Qed.

Lemma filter_all_ok (b : bool) (qs qs' : list pyval) :
  Forall2 (fun q q' => exists s, query_of q = Some s /\ loaded q' s) qs qs' ->
  exists es ss,
    for_each (filter_one b) qs' = Return es
    /\ all_some (map to_sample es) = Some ss
    /\ map formated_query ss = map query_of qs
    /\ forallb answers_ok ss = true.
Proof.
  induction 1 as [|q q' qs qs' (s & Es & Hl) _ IH]; cbn [for_each].
  - exists [], []. repeat split; reflexivity.
  - destruct (filter_one_ok b q' s Hl) as (e & smp & -> & Et & Ef & Eq & Ha).
    destruct IH as (es & ss & -> & Ea & Em & Hs). cbn [and_then].
    exists (e :: es), (smp :: ss). split; [reflexivity|].
    cbn [map all_some]. rewrite Et, Ea. split; [reflexivity|].
    cbn [forallb]. rewrite Ha, Hs, Em, Ef, Es. split; reflexivity.
Qed.

Lemma parse_sparql_returns (g : gmap str str) (ss : list sample) :
  forallb answers_ok ss = true ->
  exists out, snd (parse_sparql g ss) = Ok out /\ Forall2 same_inputs ss out.
Proof.
  revert g. induction ss as [|s rest IH]; intros g H; cbn [forallb parse_sparql] in *.
  - exists []. split; [reflexivity|constructor].
  - apply andb_prop in H as [Hs Hr].
    destruct (parse_one_ok g s Hs) as [s' Hs'].
    pose proof (parse_one_same_inputs g s s' Hs') as Hi.
    destruct (parse_one g s) as [g1 r1]. cbn [snd] in Hs'. subst r1.
    destruct (IH g1 Hr) as (out & Ho & HF).
    destruct (parse_sparql g1 rest) as [g2 r2]. cbn [snd] in Ho. subst r2.
    exists (s' :: out). split; [reflexivity|]. constructor; assumption.
Qed.

(** X21: the QALD flow, [QALDPreprocessor.run] followed by
    [SparqlParser.parse_sparql], returns on every file in the QALD
    format, and the record of each question carries as [formated_query]
    the [new_query] of the question if it has one and else the collapsed
    text of its [query.sparql]. *)
Theorem qald_pipeline_returns :
  forall (b : bool) (doc : list (str * pyval)) (qs : list pyval) (g : gmap str str),
    assoc "questions" doc = Some (PList qs) ->
    forallb question_ok qs = true ->
    exists es ss out,
      run b (PDict doc) = Return es
      /\ all_some (map to_sample es) = Some ss
      /\ snd (parse_sparql g ss) = Ok out
      /\ map formated_query out = map query_of qs.
Proof.
  intros b doc qs g Hd Hq.
  destruct (load_all_ok qs Hq) as (qs' & El & HF).
  destruct (filter_all_ok b qs qs' HF) as (es & ss & Ef & Ea & Em & Hs).
  destruct (parse_sparql_returns g ss Hs) as (out & Eo & Hi).
  exists es, ss, out. split; [|split; [exact Ea|split; [exact Eo|]]].
  - unfold run, _load. cbn [getitem]. rewrite Hd. cbn [lift and_then items_of].
    rewrite El. cbn [and_then]. unfold _filter_english. cbn [items_of lift and_then].
    exact Ef.
  - rewrite <- Em. clear -Hi. induction Hi as [|s s' ss out (E & _) _ IH]; [reflexivity|].
    cbn [map]. rewrite E, IH. reflexivity.
Qed.

Lemma qald_pipeline_returns_witness :
  exists es ss out,
    run false
      (PDict [("questions" : str,
               PList [PDict [("id" : str, PStr "7");
                             ("question" : str,
                              PList [PDict [("language" : str, PStr "en");
                                            ("string" : str, PStr "Is Paris a city?")]]);
                             ("query" : str,
                              PDict [("sparql" : str,
                                      PStr "PREFIX dbo: <http://dbpedia.org/ontology/> ASK WHERE { <http://dbpedia.org/resource/Paris> a dbo:City }")]);
                             ("answers" : str,
                              PList [PDict [("boolean" : str, PBool true)]])]])])
    = Return es
    /\ all_some (map to_sample es) = Some ss
    /\ snd (parse_sparql init ss) = Ok out
    /\ map formated_query out
       = [Some ("PREFIX dbo: <http://dbpedia.org/ontology/> ASK WHERE { <http://dbpedia.org/resource/Paris> a dbo:City }" : str)].
Proof.
  apply (qald_pipeline_returns false
           [("questions" : str,
               PList [PDict [("id" : str, PStr "7");
                             ("question" : str,
                              PList [PDict [("language" : str, PStr "en");
                                            ("string" : str, PStr "Is Paris a city?")]]);
                             ("query" : str,
                              PDict [("sparql" : str,
                                      PStr "PREFIX dbo: <http://dbpedia.org/ontology/> ASK WHERE { <http://dbpedia.org/resource/Paris> a dbo:City }")]);
                             ("answers" : str,
                              PList [PDict [("boolean" : str, PBool true)]])]])]
           _ init eq_refl).
  vm_compute. reflexivity.
Defined.
